(** * Gaussian process classifier with the Laplace approximation

    A shallow embedding of the class [GPC] of [GP.ipynb] and the properties of
    its kernel evaluator, posterior mode solver, marginal likelihood objective,
    predictive engine and fitting procedure.

    Conventions of the embedding.
    - In the model of the object and its methods a numpy [float64] array is
      a list of real numbers.  That model carries the structure of the
      computation: shapes, the order of the calls, the state of the object
      and what is raised.  It does not carry rounding, overflow, [inf] or
      [nan].
    - What the kernel evaluator returns in [float64] is modelled apart, over
      IEEE 754 binary64 numbers ([exp_kernel_f64], [K_f64]): the rounding of
      [+], [-], [*] and [/] is the kernel's own, and what numpy computes by
      library routines ([np.exp], the order of the additions in [np.sum]
      and [np.dot], the scalar power) is a parameter ([Numeric]).
    - A one-dimensional array of shape [(n,)] and a column of shape [(n,1)]
      are both a [vec]; [ravel] and [reshape(-1, 1)] are therefore the
      identity.  A two-dimensional array is the list of its rows.
    - Arrays are taken to be conformable, as the data model has them
      ([X] is n x d, [y] has n entries, [K_a] is n x n, n >= 1): numpy's
      shape errors and broadcasting of mismatched operands are not modelled.
    - [numpy.linalg] and [scipy.optimize.minimize] are external: they are
      parameters of the development ([Linalg], [optimizer]).
    - Python exceptions, missing attributes, [None] and the module-level
      name [y] are modelled explicitly; a method of the object is a function
      from the object to a result and the object afterwards. *)

From Stdlib Require Import PrimFloat SpecFloat FloatOps.
From Stdlib Require Import Reals Lra Lia String ZArith Bool List.
Import ListNotations.
Open Scope R_scope.
Set Warnings "-inexact-float".

(** ** Exceptions and results *)

(** A raised Python exception: its class name and what it is about. *)
Inductive exception : Type :=
| Exc (cls : string) (detail : string).

Definition exc_class (e : exception) : string :=
  match e with Exc c _ => c end.

(** [self.<attr>] on an object that has no such attribute. *)
Definition AttributeError (attr : string) : exception :=
  Exc "AttributeError" attr.

(** A global name that is not bound. *)
Definition NameError (name : string) : exception :=
  Exc "NameError" name.

(** [None[i]]: 'NoneType' object is not subscriptable. *)
Definition TypeError : exception :=
  Exc "TypeError" "NoneType".

Inductive result (A : Type) : Type :=
| Ok (a : A)
| Raise (e : exception).

Arguments Ok {A} a.
Arguments Raise {A} e.

(** ** The numpy layer *)

Definition vec : Set := list R.
Definition matrix : Set := list vec.

Fixpoint map2 {A B C : Type} (f : A -> B -> C) (u : list A) (v : list B)
  : list C :=
  match u, v with
  | a :: u', b :: v' => f a b :: map2 f u' v'
  | _, _ => []
  end.

(** [np.sum] of a one-dimensional array. *)
Definition Rsum (u : vec) : R := fold_right Rplus 0 u.

Definition vadd : vec -> vec -> vec := map2 Rplus.
Definition vsub : vec -> vec -> vec := map2 Rminus.
Definition vmul : vec -> vec -> vec := map2 Rmult.
Definition vscale (c : R) : vec -> vec := map (Rmult c).

Definition madd : matrix -> matrix -> matrix := map2 vadd.
Definition msub : matrix -> matrix -> matrix := map2 vsub.
Definition mmul : matrix -> matrix -> matrix := map2 vmul.
Definition mscale (c : R) : matrix -> matrix := map (vscale c).
Definition mmap (f : R -> R) : matrix -> matrix := map (map f).

(** Inner product of two one-dimensional arrays. *)
Definition dot (u v : vec) : R := Rsum (vmul u v).

(** [M.dot(v)] for a matrix and a vector. *)
Definition matvec (M : matrix) (v : vec) : vec := map (fun r => dot r v) M.

(** [np.dot(A, B.T)]: entry (i, j) is the inner product of row i of [A]
    and row j of [B]. *)
Definition dot_T (A B : matrix) : matrix :=
  map (fun a => map (fun b => dot a b) B) A.

Definition ncols (M : matrix) : nat :=
  match M with
  | [] => 0
  | r :: _ => length r
  end.

Definition col (j : nat) (M : matrix) : vec := map (fun r => nth j r 0) M.

(** [M.T] *)
Definition transpose (M : matrix) : matrix :=
  map (fun j => col j M) (seq 0 (ncols M)).

(** [A @ B] *)
Definition matmul (A B : matrix) : matrix := dot_T A (transpose B).

(** [v.dot(M)] for a one-dimensional [v]. *)
Definition vecmat (v : vec) (M : matrix) : vec := matvec (transpose M) v.

(** [np.sum(M, axis=0)]: the sums of the columns. *)
Definition colsum (M : matrix) : vec := map Rsum (transpose M).

(** [np.sum(M, 1)]: the sums of the rows. *)
Definition rowsum (M : matrix) : vec := map Rsum M.

(** [u.reshape(-1, 1) + v]: broadcasting a column against a row. *)
Definition outer_add (u v : vec) : matrix :=
  map (fun a => map (fun b => a + b) v) u.

Definition zeros_like (y : vec) : vec := map (fun _ => 0) y.

(** The n x n array whose entry (i, j) is [f i j]. *)
Definition mk_matrix (n : nat) (f : nat -> nat -> R) : matrix :=
  map (fun i => map (fun j => f i j) (seq 0 n)) (seq 0 n).

(** [np.diag(r)] for a one-dimensional [r]: [r] on the diagonal, zero
    elsewhere. *)
Definition diag (r : vec) : matrix :=
  mk_matrix (length r) (fun i j => if Nat.eqb i j then nth i r 0 else 0).

(** [np.eye(n)] *)
Definition eye (n : nat) : matrix :=
  mk_matrix n (fun i j => if Nat.eqb i j then 1 else 0).

Definition entry (M : matrix) (i j : nat) : R := nth j (nth i M []) 0.

(** [np.any(d > tol)] *)
Definition any_gt (d : vec) (tol : R) : bool :=
  existsb (fun x => if Rlt_dec tol x then true else false) d.

(** [scipy.special.expit] *)
Definition sigmoid (x : R) : R := 1 / (1 + exp (- x)).

(** ** External collaborators *)

(** [numpy.linalg]: [pinv] is the pseudo-inverse, [inv] the exact inverse,
    which raises [LinAlgError] on a singular matrix, and [slogdet] returns
    the sign and the logarithm of the absolute value of the determinant. *)
Record Linalg : Type := {
  pinv : matrix -> matrix;
  inv : matrix -> result matrix;
  slogdet : matrix -> R * R
}.

(** Kernel hyperparameters [theta]: [theta[0]] is the length scale and
    [theta[1]] the signal standard deviation. *)
Definition theta_t : Type := (R * R)%type.

(** The object [scipy.optimize.minimize] returns: [res.x] and [res.fun]. *)
Record OptimizeResult : Type := {
  res_x : theta_t;
  res_fun : R
}.

(** [scipy.optimize.minimize(f, x0, bounds=..., method="L-BFGS-B")]: the
    objective may raise, and so may the optimizer. *)
Definition optimizer : Type :=
  (theta_t -> result R) -> theta_t -> list (R * option R) ->
  result OptimizeResult.

(** ** The object and its methods *)

(** The attributes of a [GPC] object.  [self.theta] exists from
    construction on and may hold [None]; [self.X] and [self.y] do not exist
    until [fit] assigns them. *)
Record GPC : Type := {
  self_theta : option theta_t;
  self_X : option matrix;
  self_y : option vec
}.

(** A method call: it takes the object and gives a result, or the exception
    it raised, and the object as the call left it. *)
Definition M (A : Type) : Type := GPC -> result A * GPC.

Definition ret {A : Type} (a : A) : M A := fun s => (Ok a, s).

Definition bind {A B : Type} (m : M A) (k : A -> M B) : M B :=
  fun s =>
    match m s with
    | (Ok a, s') => k a s'
    | (Raise e, s') => (Raise e, s')
    end.

Notation "x <- m ;; k" := (bind m (fun x => k))
  (at level 61, m at next level, right associativity).
Notation "m ;;; k" := (bind m (fun _ => k))
  (at level 61, right associativity).

Definition lift {A : Type} (r : result A) : M A := fun s => (r, s).

Definition raise {A : Type} (e : exception) : M A := lift (Raise e).

(** [self.X] *)
Definition getattr_X : M matrix :=
  fun s =>
    match self_X s with
    | Some v => (Ok v, s)
    | None => (Raise (AttributeError "X"), s)
    end.

(** [self.y] *)
Definition getattr_y : M vec :=
  fun s =>
    match self_y s with
    | Some v => (Ok v, s)
    | None => (Raise (AttributeError "y"), s)
    end.

(** [self.theta] *)
Definition getattr_theta : M (option theta_t) :=
  fun s => (Ok (self_theta s), s).

Definition setattr_X (v : matrix) : M unit :=
  fun s => (Ok tt, {| self_theta := self_theta s;
                      self_X := Some v;
                      self_y := self_y s |}).

Definition setattr_y (v : vec) : M unit :=
  fun s => (Ok tt, {| self_theta := self_theta s;
                      self_X := self_X s;
                      self_y := Some v |}).

Definition setattr_theta (v : option theta_t) : M unit :=
  fun s => (Ok tt, {| self_theta := v;
                      self_X := self_X s;
                      self_y := self_y s |}).

(** [theta[0]] and [theta[1]] inside the kernel: subscripting [None]
    raises. *)
Definition subscript (th : option theta_t) : M theta_t :=
  match th with
  | Some t => ret t
  | None => raise TypeError
  end.

(** [GPC.__init__] *)
Definition __init__ : GPC :=
  {| self_theta := None; self_X := None; self_y := None |}.

(** The default of the parameter [nu] of [K_]. *)
Definition nu_default : R := 1e-5.

(** [GPC.exp_kernel] *)
Definition exp_kernel (X1 X2 : matrix) (theta : theta_t) : matrix :=
  let sqdist :=
    msub (outer_add (rowsum (mmap (fun x => x ^ 2) X1))
                    (rowsum (mmap (fun x => x ^ 2) X2)))
         (mscale 2 (dot_T X1 X2)) in
  mscale (snd theta ^ 2) (mmap exp (mscale (-0.5 / fst theta ^ 2) sqdist)).

(** [GPC.K_]: a number when [diag_only] is set, a matrix otherwise. *)
Definition K_ (X : matrix) (theta : theta_t) (diag_only : bool) (nu : R)
  : if diag_only then R else matrix :=
  match diag_only return (if diag_only then R else matrix) with
  | true => snd theta ^ 2 + nu
  | false => madd (exp_kernel X X theta) (mscale nu (eye (length X)))
  end.

(** [GPC.W_] *)
Definition W_ (a : vec) : matrix :=
  let r := map (fun x => sigmoid x * (1 - sigmoid x)) a in
  diag r.

Section Methods.

Context (L : Linalg).

(** One pass through the body of the loop of [posterior_mode]: the new
    iterate and whether the loop breaks after it. *)
Definition posterior_body (X : matrix) (y : vec) (K_a : matrix) (tol : R)
           (a_h : vec) : vec * bool :=
  let I := eye (length X) in
  let W := W_ a_h in
  let Q_inv := pinv L (madd I (matmul W K_a)) in
  let a_h_new :=
    matvec (matmul K_a Q_inv)
           (vadd (vsub y (map sigmoid a_h)) (matvec W a_h)) in
  let a_h_diff := map Rabs (vsub a_h_new a_h) in
  (a_h_new, negb (any_gt a_h_diff tol)).

(** The loop [for i in range(max_iter)], with [fuel] passes left after
    [i] passes done: the number of passes done and the iterate at exit. *)
Fixpoint posterior_loop (X : matrix) (y : vec) (K_a : matrix) (tol : R)
         (fuel : nat) (i : nat) (a_h : vec) : nat * vec :=
  match fuel with
  | O => (i, a_h)
  | S fuel' =>
      let '(a_h_new, stop) := posterior_body X y K_a tol a_h in
      if stop then (S i, a_h_new)
      else posterior_loop X y K_a tol fuel' (S i) a_h_new
  end.

(** [GPC.posterior_mode], together with the number of passes it made. *)
Definition posterior_mode_run (X : matrix) (y : vec) (K_a : matrix)
           (max_iter : Z) (tol : R) : nat * vec :=
  let a_h := zeros_like y in
  posterior_loop X y K_a tol (Z.to_nat max_iter) 0 a_h.

(** [GPC.posterior_mode] *)
Definition posterior_mode (X : matrix) (y : vec) (K_a : matrix)
           (max_iter : Z) (tol : R) : vec :=
  snd (posterior_mode_run X y K_a max_iter tol).

(** [GPC.nll_fn]: the objective [nll] for the training set; [y.ravel()]
    and [a_h.T] leave a [vec] as it is. *)
Definition nll_fn (X : matrix) (y : vec) : theta_t -> result R :=
  fun theta =>
    let K_a := K_ X theta false nu_default in
    match inv L K_a with
    | Raise e => Raise e
    | Ok K_a_inv =>
        let a_h := posterior_mode X y K_a 10 1e-9 in
        let W := W_ a_h in
        let ll :=
          -0.5 * dot (vecmat a_h K_a_inv) a_h
          - 0.5 * snd (slogdet L K_a)
          - 0.5 * snd (slogdet L (madd W K_a_inv))
          + dot y a_h
          - Rsum (map (fun a => ln (1.0 + exp a)) a_h) in
        Ok (- ll)
    end.

(** [GPC.mean_var] *)
Definition mean_var (X_test : matrix) : M (vec * vec) :=
  X <- getattr_X ;;
  th <- getattr_theta ;;
  theta <- subscript th ;;
  let K_a := K_ X theta false nu_default in
  X <- getattr_X ;;
  th <- getattr_theta ;;
  theta <- subscript th ;;
  let K_s := exp_kernel X X_test theta in
  X <- getattr_X ;;
  y <- getattr_y ;;
  let a_h := posterior_mode X y K_a 10 1e-9 in
  let W_inv := pinv L (W_ a_h) in
  let R_inv := pinv L (madd W_inv K_a) in
  y <- getattr_y ;;
  let a_test_mu := matvec (transpose K_s) (vsub y (map sigmoid a_h)) in
  th <- getattr_theta ;;
  theta <- subscript th ;;
  let a_test_var :=
    map (fun c => K_ X_test theta true nu_default - c)
        (colsum (mmul (matmul R_inv K_s) K_s)) in
  ret (a_test_mu, a_test_var).

(** [GPC.predict] *)
Definition predict (X : matrix) : M vec :=
  mv <- mean_var X ;;
  let '(a_mu, a_var) := mv in
  let kappa := map (fun v => 1.0 / sqrt (1.0 + PI * v / 8)) a_var in
  ret (map sigmoid (vmul kappa a_mu)).

(** The name [y] of the module namespace, bound or not. *)
Context (module_y : option vec).

Definition global_y : M vec :=
  match module_y with
  | Some v => ret v
  | None => raise (NameError "y")
  end.

(** [GPC.predict_params] *)
Definition predict_params (X_test : matrix) : M (vec * vec) :=
  X <- getattr_X ;;
  th <- getattr_theta ;;
  theta <- subscript th ;;
  let K_a := K_ X theta false nu_default in
  X <- getattr_X ;;
  th <- getattr_theta ;;
  theta <- subscript th ;;
  let K_s := exp_kernel X X_test theta in
  X <- getattr_X ;;
  y <- global_y ;;
  let a_h := posterior_mode X y K_a 10 1e-9 in
  W_inv <- lift (inv L (W_ a_h)) ;;
  R_inv <- lift (inv L (madd W_inv K_a)) ;;
  y <- global_y ;;
  let a_test_mu := matvec (transpose K_s) (vsub y (map sigmoid a_h)) in
  th <- getattr_theta ;;
  theta <- subscript th ;;
  let a_test_var :=
    map (fun c => K_ X_test theta true nu_default - c)
        (colsum (mmul (matmul R_inv K_s) K_s)) in
  ret (a_test_mu, a_test_var).

Context (minimize : optimizer).

(** [GPC.fit].  The closing [print] writes the fitted parameters to the
    standard output and leaves the object alone. *)
Definition fit (X : matrix) (y : vec) : M unit :=
  setattr_X X ;;;
  setattr_y y ;;;
  res <- lift (minimize (nll_fn X y) (1, 1)
                        [(1e-3, None); (1e-3, None)]) ;;
  setattr_theta (Some (res_x res)).

End Methods.

(** ** The kernel evaluator in float64 *)

(** A [float] is an IEEE 754 binary64 number, and [+], [-], [*] and [/] on
    floats round to nearest, ties to even, as numpy's do on [float64].
    The routines of numpy whose rounding the source does not fix are taken
    as they come:
    - [np_exp] is [np.exp] at one entry;
    - [np_sum] is [np.sum(., 1)] on one row, in whatever order it adds;
    - [np_dot] is one entry of [np.dot(X1, X2.T)], the inner product of a
      row of [X1] and a row of [X2], in whatever order it adds;
    - [pow2] is [theta[k] ** 2] on a scalar. *)
Record Numeric : Type := {
  np_exp : float -> float;
  np_sum : list float -> float;
  np_dot : list float -> list float -> float;
  pow2 : float -> float
}.

Definition fmatrix : Set := list (list float).

(** The default of the parameter [nu] of [K_], as a float. *)
Definition nu_f64 : float := 1e-5.

(** [GPC.exp_kernel] on float64 arrays.  [X ** 2] on an array is the
    entrywise product; the column of the row sums of [X1 ** 2] is broadcast
    against the row sums of [X2 ** 2], and [-0.5 / theta[0] ** 2] is one
    scalar that multiplies every entry of [sqdist]. *)
Definition exp_kernel_f64 (np : Numeric) (X1 X2 : fmatrix)
           (theta : float * float) : fmatrix :=
  let sq1 := map (fun r => np_sum np (map (fun x => x * x)%float r)) X1 in
  let sq2 := map (fun r => np_sum np (map (fun x => x * x)%float r)) X2 in
  let sqdist :=
    map2 (fun r1 a =>
            map2 (fun r2 b => (a + b - 2 * np_dot np r1 r2)%float) X2 sq2)
         X1 sq1 in
  map (map (fun s => (pow2 np (snd theta)
                      * np_exp np (-0.5 / pow2 np (fst theta) * s))%float))
      sqdist.

(** [np.eye(n)] *)
Definition eye_f64 (n : nat) : fmatrix :=
  map (fun i => map (fun j => if Nat.eqb i j then 1%float else 0%float)
                    (seq 0 n))
      (seq 0 n).

(** [GPC.K_] on float64 arrays. *)
Definition K_f64 (np : Numeric) (X : fmatrix) (theta : float * float)
           (diag_only : bool) (nu : float)
  : if diag_only then float else fmatrix :=
  match diag_only return (if diag_only then float else fmatrix) with
  | true => (pow2 np (snd theta) + nu)%float
  | false => map2 (map2 add) (exp_kernel_f64 np X X theta)
                  (map (map (mul nu)) (eye_f64 (length X)))
  end.

(** ** Vocabulary of the properties *)

(** The Newton update in the words of the solver's description:
    [a_new = K_a . pinv(I + W . K_a) . (y - sigmoid(a) + W . a)] with
    [W = diag(sigmoid(a) . (1 - sigmoid(a)))] and [I] the n x n identity. *)
Definition newton_update (L : Linalg) (n : nat) (K_a : matrix) (y a : vec)
  : vec :=
  let W := diag (map (fun x => sigmoid x * (1 - sigmoid x)) a) in
  matvec (matmul K_a (pinv L (madd (eye n) (matmul W K_a))))
         (vadd (vsub y (map sigmoid a)) (matvec W a)).

(** The k-th Newton iterate from the all-zero vector. *)
Definition iterate (L : Linalg) (n : nat) (K_a : matrix) (y : vec) (k : nat)
  : vec :=
  Nat.iter k (newton_update L n K_a y) (zeros_like y).

(** Some coordinate of [|a_new - a|] exceeds [tol]. *)
Definition exceeds (tol : R) (a_new a : vec) : Prop :=
  Exists (fun d => tol < d) (map Rabs (vsub a_new a)).

(** The logarithm of the absolute determinant, read off [slogdet]. *)
Definition logabsdet (L : Linalg) (A : matrix) : R := snd (slogdet L A).

(** The Laplace approximation of the log marginal likelihood in the words
    of the objective's description. *)
Definition laplace_ll (L : Linalg) (K_a K_a_inv W : matrix) (y a_h : vec)
  : R :=
  -0.5 * dot (vecmat a_h K_a_inv) a_h
  - 0.5 * logabsdet L K_a
  - 0.5 * logabsdet L (madd W K_a_inv)
  + dot y a_h
  - Rsum (map (fun a => ln (1 + exp a)) a_h).

(** The squared exponential kernel of two points. *)
Definition kern (theta : theta_t) (x1 x2 : vec) : R :=
  snd theta ^ 2 *
  exp (-0.5 / fst theta ^ 2 *
       (Rsum (map (fun x => x ^ 2) x1) + Rsum (map (fun x => x ^ 2) x2)
        - 2 * dot x1 x2)).

Definition symmetric (A : matrix) : Prop :=
  forall i j : nat, entry A i j = entry A j i.

(** Positive semi-definite: the quadratic form is nowhere negative. *)
Definition psd (A : matrix) : Prop :=
  forall c : vec, length c = length A -> 0 <= dot c (matvec A c).

(** The real number a finite float stands for: its mantissa times two to
    its exponent.  The values of [inf] and [nan] are not used. *)
Definition value (x : float) : R :=
  match Prim2SF x with
  | S754_finite s m e => (if s then -1 else 1) * IZR (Zpos m) * powerRZ 2 e
  | _ => 0
  end.

(** The sum of [f 0], ..., [f (n - 1)]. *)
Definition bigsum (n : nat) (f : nat -> R) : R := Rsum (map f (seq 0 n)).

(** The quadratic form of the n x n array with entries [A i j] at the
    vector with entries [b i]. *)
Definition qform (n : nat) (b : nat -> R) (A : nat -> nat -> R) : R :=
  bigsum n (fun i => bigsum n (fun j => b i * b j * A i j)).

(** The partial sums of the exponential series. *)
Definition exp_partial (N : nat) (z : R) : R :=
  sum_f_R0 (fun k => / INR (fact k) * z ^ k) N.

(** A call raises an exception of the class [cls]. *)
Definition raises {A : Type} (cls : string) (r : result A) : Prop :=
  match r with
  | Raise e => exc_class e = cls
  | Ok _ => False
  end.

(** A method that leaves the object as it found it. *)
Definition readonly {A : Type} (m : M A) : Prop :=
  forall s : GPC, snd (m s) = s.

(** The two lifecycle states of the data model. *)
Definition unfitted (s : GPC) : Prop :=
  self_theta s = None /\ self_X s = None /\ self_y s = None.

Definition fitted (s : GPC) : Prop :=
  self_theta s <> None /\ self_X s <> None /\ self_y s <> None.

Definition lifecycle_ok (s : GPC) : Prop := unfitted s \/ fitted s.

(** What the object's fields do satisfy: the training data is set as a
    whole, and [theta] is never set without it. *)
Definition data_before_theta (s : GPC) : Prop :=
  (self_X s = None <-> self_y s = None) /\
  (self_theta s <> None -> self_X s <> None /\ self_y s <> None).

(** The objects a caller can observe: a fresh one, and one obtained from
    an observable object by a call to a method, whether the call returns or
    raises. *)
Inductive reachable (L : Linalg) (module_y : option vec)
          (minimize : optimizer) : GPC -> Prop :=
| reach_init : reachable L module_y minimize __init__
| reach_fit (s : GPC) (X : matrix) (y : vec) :
    reachable L module_y minimize s ->
    reachable L module_y minimize (snd (fit L minimize X y s))
| reach_mean_var (s : GPC) (X_test : matrix) :
    reachable L module_y minimize s ->
    reachable L module_y minimize (snd (mean_var L X_test s))
| reach_predict (s : GPC) (X_test : matrix) :
    reachable L module_y minimize s ->
    reachable L module_y minimize (snd (predict L X_test s))
| reach_predict_params (s : GPC) (X_test : matrix) :
    reachable L module_y minimize s ->
    reachable L module_y minimize (snd (predict_params L module_y X_test s)).

(** The latent mean and the latent variance [mean_var] computes at one
    test point, for a model holding [X], [y] and [theta]. *)
Definition mean_at (L : Linalg) (theta : theta_t) (X : matrix) (y : vec)
           (x_test : vec) : R :=
  let K_a := K_ X theta false nu_default in
  let a_h := posterior_mode L X y K_a 10 1e-9 in
  dot (map (fun x => kern theta x x_test) X) (vsub y (map sigmoid a_h)).

Definition var_at (L : Linalg) (theta : theta_t) (X : matrix) (y : vec)
           (x_test : vec) : R :=
  let K_a := K_ X theta false nu_default in
  let a_h := posterior_mode L X y K_a 10 1e-9 in
  let R_inv := pinv L (madd (pinv L (W_ a_h)) K_a) in
  snd theta ^ 2 + nu_default
  - Rsum (map (fun p => dot (fst p) (map (fun x => kern theta x x_test) X)
                        * kern theta (snd p) x_test)
              (combine R_inv X)).

(** *** Concrete collaborators for the examples *)

(** [numpy.linalg] in closed form on 1 x 1 matrices, the case of a single
    training point; the examples use no other shape, and a matrix of
    another shape is handed back as it is. *)
Definition linalg_1x1 : Linalg :=
  {| pinv := fun A =>
       match A with
       | [[a]] => [[if Req_dec_T a 0 then 0 else / a]]
       | _ => A
       end;
     inv := fun A =>
       match A with
       | [[a]] => if Req_dec_T a 0
                  then Raise (Exc "LinAlgError" "Singular matrix")
                  else Ok [[/ a]]
       | _ => Ok A
       end;
     slogdet := fun A =>
       match A with
       | [[a]] => (if Rlt_dec 0 a then 1 else if Rlt_dec a 0 then -1 else 0,
                   ln (Rabs a))
       | _ => (1, 0)
       end |}.

(** A run of the optimizer that evaluates the objective at the starting
    point and stops there. *)
Definition minimize_at_start : optimizer :=
  fun f x0 _ =>
    match f x0 with
    | Ok v => Ok {| res_x := x0; res_fun := v |}
    | Raise e => Raise e
    end.

(** A run of the optimizer that ends in an exception, as it does when the
    objective raises one. *)
Definition minimize_raising : optimizer :=
  fun _ _ _ => Raise (Exc "ValueError" "minimize").

(** A model fitted on one point with label 1. *)
Definition gp_one : GPC :=
  {| self_theta := Some (1, 1);
     self_X := Some [[0]];
     self_y := Some [1] |}.

(** One point of eight features. *)
Definition x8 : list float := [0.6; 0.4; 1.1; 0.6; 1.1; 0.9; 0.3; 1.7]%float.

(** Two points of one feature, far from the origin and close to each
    other. *)
Definition X_close : fmatrix := [[10000000.005%float]; [10000000.0055%float]].

(** The routines of numpy on the arguments of the examples: [np.exp] by
    its values there (it has no other entry), [np.sum] adding a row of eight
    numbers pair by pair and a shorter row from left to right, as numpy's
    pairwise summation does, the inner product adding its products from
    left to right, and the scalar power as a product. *)
Definition numpy_sample : Numeric :=
  {| np_exp := fun x =>
       if is_nan x then nan
       else if (x =? 0)%float then 1%float
       else if (x =? 0.015625)%float then 1.0157477085866857%float
       else if (x =? 8.881784197001252e-16)%float
            then 1.0000000000000009%float
       else nan;
     np_sum := fun r =>
       match r with
       | [a; b; c; d; e; f; g; h] =>
           (((a + b) + (c + d)) + ((e + f) + (g + h)))%float
       | a :: r' => fold_left add r' a
       | [] => 0%float
       end;
     np_dot := fun u v =>
       match u, v with
       | a :: u', b :: v' =>
           fold_left (fun s p => (s + fst p * snd p)%float) (combine u' v')
                     (a * b)%float
       | _, _ => 0%float
       end;
     pow2 := fun x => (x * x)%float |}.

(** * Properties *)

(** ** Arrays and finite sums *)

Lemma map2_map_map {A B C D : Type} (f : B -> C -> D) (g : A -> B)
      (h : A -> C) (l : list A) :
  map2 f (map g l) (map h l) = map (fun x => f (g x) (h x)) l.
Proof. induction l as [|a l IH]; cbn; [reflexivity | now rewrite IH]. Qed.

Lemma map_as_seq {A B : Type} (f : A -> B) (l : list A) (d : A) :
  map f l = map (fun i => f (nth i l d)) (seq 0 (length l)).
Proof.
  induction l as [|a l IH]; [reflexivity|].
  cbn [length seq map nth]. rewrite <- seq_shift, map_map. now rewrite IH.
Qed.

Lemma nth_map_seq {B : Type} (f : nat -> B) (n i : nat) (d : B) :
  (i < n)%nat -> nth i (map f (seq 0 n)) d = f i.
Proof.
  intro H.
  rewrite (nth_indep _ d (f 0%nat)) by (now rewrite length_map, length_seq).
  rewrite map_nth, seq_nth by assumption. reflexivity.
Qed.

Lemma nth_nil_R (a : nat) : nth a (@nil R) 0 = 0.
Proof. now destruct a. Qed.

Lemma zeros_like_repeat (y : vec) : zeros_like y = repeat 0 (length y).
Proof.
  unfold zeros_like. induction y as [|b y IH]; cbn; [reflexivity|].
  now rewrite IH.
Qed.

Lemma Rsum_app (u v : vec) : Rsum (u ++ v) = Rsum u + Rsum v.
Proof.
  unfold Rsum. induction u as [|a u IH]; cbn; [lra | rewrite IH; lra].
Qed.

Lemma dot_comm (u v : vec) : dot u v = dot v u.
Proof.
  unfold dot, vmul, Rsum. revert v.
  induction u as [|a u IH]; intros [|b v]; cbn; try reflexivity.
  rewrite IH. lra.
Qed.

Lemma rowsum_sq_dot (x : vec) : Rsum (map (fun a => a ^ 2) x) = dot x x.
Proof.
  unfold dot, vmul, Rsum. induction x as [|a x IH]; cbn; [reflexivity|].
  cbn in IH. rewrite IH. lra.
Qed.

Lemma bigsum_0 (f : nat -> R) : bigsum 0 f = 0.
Proof. reflexivity. Qed.

Lemma bigsum_S (n : nat) (f : nat -> R) : bigsum (S n) f = bigsum n f + f n.
Proof.
  unfold bigsum. rewrite seq_S, map_app, Rsum_app. cbn. lra.
Qed.

Lemma bigsum_shift (n : nat) (f : nat -> R) :
  bigsum (S n) f = f 0%nat + bigsum n (fun i => f (S i)).
Proof.
  unfold bigsum. cbn [seq map Rsum fold_right].
  rewrite <- seq_shift, map_map. reflexivity.
Qed.

Lemma bigsum_ext (n : nat) (f g : nat -> R) :
  (forall i, (i < n)%nat -> f i = g i) -> bigsum n f = bigsum n g.
Proof.
  induction n as [|n IH]; intro H; [reflexivity|].
  rewrite !bigsum_S, IH, H by (intros; try apply H; lia). reflexivity.
Qed.

Lemma bigsum_zero (n : nat) : bigsum n (fun _ => 0) = 0.
Proof.
  induction n as [|n IH]; [reflexivity | rewrite bigsum_S, IH; lra].
Qed.

Lemma bigsum_plus (n : nat) (f g : nat -> R) :
  bigsum n (fun i => f i + g i) = bigsum n f + bigsum n g.
Proof.
  induction n as [|n IH]; [rewrite !bigsum_0; lra|].
  rewrite !bigsum_S, IH. lra.
Qed.

Lemma bigsum_scal (n : nat) (c : R) (f : nat -> R) :
  bigsum n (fun i => c * f i) = c * bigsum n f.
Proof.
  induction n as [|n IH]; [rewrite !bigsum_0; lra|].
  rewrite !bigsum_S, IH. lra.
Qed.

Lemma bigsum_nonneg (n : nat) (f : nat -> R) :
  (forall i, (i < n)%nat -> 0 <= f i) -> 0 <= bigsum n f.
Proof.
  induction n as [|n IH]; intro H; [rewrite bigsum_0; lra|].
  rewrite bigsum_S.
  assert (0 <= bigsum n f) by (apply IH; intros; apply H; lia).
  assert (0 <= f n) by (apply H; lia). lra.
Qed.

Lemma bigsum_swap (n m : nat) (f : nat -> nat -> R) :
  bigsum n (fun i => bigsum m (fun j => f i j))
  = bigsum m (fun j => bigsum n (fun i => f i j)).
Proof.
  induction n as [|n IH].
  - rewrite bigsum_0. symmetry. rewrite <- (bigsum_zero m).
    apply bigsum_ext; intros; apply bigsum_0.
  - rewrite bigsum_S, IH, <- bigsum_plus. apply bigsum_ext; intros.
    now rewrite bigsum_S.
Qed.

Lemma bigsum_delta (n i : nat) (g : nat -> R) :
  (i < n)%nat ->
  bigsum n (fun j => (if Nat.eqb i j then 1 else 0) * g j) = g i.
Proof.
  induction n as [|n IH]; intro H; [lia|].
  rewrite bigsum_S. destruct (Nat.eq_dec i n) as [->|Hne].
  - rewrite Nat.eqb_refl.
    rewrite (bigsum_ext n _ (fun _ => 0 * 0)).
    + rewrite bigsum_scal. lra.
    + intros j Hj. destruct (Nat.eqb_spec n j); [lia | lra].
  - rewrite IH by lia. destruct (Nat.eqb_spec i n); [contradiction | lra].
Qed.

(** A finite sum of convergent sequences converges to the sum of the
    limits. *)
Lemma bigsum_cv (n : nat) (f : nat -> nat -> R) (l : nat -> R) :
  (forall i, (i < n)%nat -> Un_cv (fun N => f N i) (l i)) ->
  Un_cv (fun N => bigsum n (f N)) (bigsum n l).
Proof.
  induction n as [|n IH]; intro H.
  - intros eps Heps. exists 0%nat. intros N _. rewrite !bigsum_0.
    unfold R_dist. rewrite Rminus_diag, Rabs_R0. exact Heps.
  - apply (Un_cv_ext (fun N => bigsum n (f N) + f N n)).
    + intro N. now rewrite bigsum_S.
    + rewrite bigsum_S.
      apply CV_plus; [apply IH; intros; apply H; lia | apply H; lia].
Qed.

Lemma vmul_seq_l (g : nat -> R) (c : vec) :
  vmul (map g (seq 0 (length c))) c
  = map (fun j => g j * nth j c 0) (seq 0 (length c)).
Proof.
  revert g. induction c as [|a c IH]; intro g; [reflexivity|].
  cbn [length seq map]. rewrite <- seq_shift, !map_map.
  unfold vmul in *. cbn [map2 nth]. now rewrite IH.
Qed.

Lemma dot_seq_l (g : nat -> R) (c : vec) :
  dot (map g (seq 0 (length c))) c
  = bigsum (length c) (fun j => g j * nth j c 0).
Proof. unfold dot. now rewrite vmul_seq_l. Qed.

(** The inner product as a sum over coordinates, a missing coordinate
    counting as zero. *)
Lemma dot_as_bigsum (x x' : vec) (d : nat) :
  (length x <= d)%nat ->
  dot x x' = bigsum d (fun a => nth a x 0 * nth a x' 0).
Proof.
  revert x' d. induction x as [|p x IH]; intros x' d Hd.
  - rewrite (bigsum_ext d _ (fun _ => 0))
      by (intros; rewrite nth_nil_R; lra).
    now rewrite bigsum_zero.
  - destruct d as [|d]; [cbn in Hd; lia|]. destruct x' as [|q x'].
    + rewrite (bigsum_ext (S d) _ (fun _ => 0))
        by (intros; rewrite nth_nil_R; lra).
      now rewrite bigsum_zero.
    + rewrite bigsum_shift. cbn [nth].
      rewrite <- IH by (cbn in Hd; lia). reflexivity.
Qed.

Lemma length_le_list_max (X : matrix) (i : nat) :
  (length (nth i X []) <= list_max (map (@length R) X))%nat.
Proof.
  destruct (Nat.lt_ge_cases i (length X)) as [Hi|Hi].
  - pose proof (proj1 (list_max_le (map (@length R) X) _) (Nat.le_refl _))
      as Hall.
    rewrite Forall_forall in Hall. apply Hall.
    apply in_map, nth_In, Hi.
  - rewrite nth_overflow by assumption. cbn. lia.
Qed.

Lemma entry_mk_matrix (n : nat) (f : nat -> nat -> R) (i j : nat) :
  entry (mk_matrix n f) i j
  = if (i <? n)%nat && (j <? n)%nat then f i j else 0.
Proof.
  unfold entry, mk_matrix.
  destruct (Nat.ltb_spec i n) as [Hi|Hi]; cbn [andb].
  - rewrite nth_map_seq by assumption.
    destruct (Nat.ltb_spec j n) as [Hj|Hj].
    + now rewrite nth_map_seq.
    + apply nth_overflow. now rewrite length_map, length_seq.
  - replace (nth i _ []) with (@nil R)
      by (symmetry; apply nth_overflow; now rewrite length_map, length_seq).
    now destruct j.
Qed.

Lemma madd_mk_matrix (n : nat) (f g : nat -> nat -> R) :
  madd (mk_matrix n f) (mk_matrix n g)
  = mk_matrix n (fun i j => f i j + g i j).
Proof.
  unfold madd, mk_matrix, vadd. rewrite map2_map_map.
  apply map_ext; intro i. now rewrite map2_map_map.
Qed.

Lemma mscale_mk_matrix (c : R) (n : nat) (f : nat -> nat -> R) :
  mscale c (mk_matrix n f) = mk_matrix n (fun i j => c * f i j).
Proof.
  unfold mscale, mk_matrix, vscale. rewrite map_map.
  apply map_ext; intro i. now rewrite map_map.
Qed.

(** The quadratic form of an array given entry by entry. *)
Lemma quad_mk_matrix (n : nat) (f : nat -> nat -> R) (c : vec) :
  length c = n ->
  dot c (matvec (mk_matrix n f) c) = qform n (fun i => nth i c 0) f.
Proof.
  intros <-. unfold matvec, mk_matrix, qform.
  rewrite map_map, dot_comm, dot_seq_l.
  apply bigsum_ext; intros i _.
  rewrite dot_seq_l, Rmult_comm, <- bigsum_scal.
  apply bigsum_ext; intros j _. lra.
Qed.

Lemma transpose_mk_matrix (n : nat) (f : nat -> nat -> R) :
  transpose (mk_matrix n f) = mk_matrix n (fun j i => f i j).
Proof.
  unfold transpose.
  assert (Hc : ncols (mk_matrix n f) = n).
  { unfold mk_matrix. destruct n as [|n]; [reflexivity|].
    cbn [seq map ncols length]. now rewrite length_map, length_seq. }
  rewrite Hc. unfold mk_matrix, col. apply map_ext_in; intros j Hj.
  rewrite map_map. apply map_ext; intro i.
  apply nth_map_seq. apply in_seq in Hj. lia.
Qed.

(** [a.T.dot(A).dot(a)] is the quadratic form of [A] at [a]. *)
Lemma quad_vecmat (n : nat) (f : nat -> nat -> R) (a : vec) :
  length a = n ->
  dot (vecmat a (mk_matrix n f)) a = qform n (fun i => nth i a 0) f.
Proof.
  intro Ha. unfold vecmat. rewrite transpose_mk_matrix, dot_comm.
  rewrite quad_mk_matrix by assumption. unfold qform.
  rewrite bigsum_swap. apply bigsum_ext; intros i _.
  apply bigsum_ext; intros j _. lra.
Qed.

(** The array operations on small inputs. *)

Ltac array_eq :=
  cbv [matmul dot_T transpose ncols col colsum rowsum matvec vecmat dot
       vmul vadd vsub madd msub mmul mscale vscale mmap map2 map seq nth
       length Rsum fold_right eye diag mk_matrix Nat.eqb zeros_like
       outer_add];
  repeat (f_equal; try lra).

Example matmul_2x2 :
  matmul [[1; 2]; [3; 4]] [[5; 6]; [7; 8]] = [[19; 22]; [43; 50]].
Proof. array_eq. Qed.

Example transpose_2x3 :
  transpose [[1; 2; 3]; [4; 5; 6]] = [[1; 4]; [2; 5]; [3; 6]].
Proof. array_eq. Qed.

Example colsum_2x3 : colsum [[1; 2; 3]; [4; 5; 6]] = [5; 7; 9].
Proof. array_eq. Qed.

Example diag_3 : diag [7; 8; 9] = [[7; 0; 0]; [0; 8; 0]; [0; 0; 9]].
Proof. array_eq. Qed.

Example eye_2 : eye 2 = [[1; 0]; [0; 1]].
Proof. array_eq. Qed.

Example matvec_2x2 : matvec [[1; 2]; [3; 4]] [5; 6] = [17; 39].
Proof. array_eq. Qed.

Example vecmat_2x2 : vecmat [5; 6] [[1; 2]; [3; 4]] = [23; 34].
Proof. array_eq. Qed.

Lemma sigmoid_bounds (x : R) : 0 < sigmoid x < 1.
Proof.
  unfold sigmoid. pose proof (exp_pos (- x)) as He.
  split.
  - apply Rdiv_lt_0_compat; lra.
  - apply (Rmult_lt_reg_r (1 + exp (- x))); [lra|].
    unfold Rdiv. rewrite Rmult_assoc, Rinv_l by lra. lra.
Qed.

(** ** The kernel evaluator *)

(** [exp_kernel] entry by entry: the kernel of row i of [X1] and row j of
    [X2]. *)
Lemma exp_kernel_gram (X1 X2 : matrix) (theta : theta_t) :
  exp_kernel X1 X2 theta
  = map (fun x1 => map (fun x2 => kern theta x1 x2) X2) X1.
Proof.
  unfold exp_kernel, mscale, mmap, msub, outer_add, rowsum, dot_T, vscale,
    vsub, kern.
  rewrite !map_map, map2_map_map, !map_map.
  apply map_ext; intro x1.
  rewrite !map_map, map2_map_map, !map_map.
  apply map_ext; intro x2. reflexivity.
Qed.

Example exp_kernel_pair :
  exp_kernel [[0; 0]] [[3; 4]; [0; 0]] (1, 2) = [[4 * exp (-12.5); 4]].
Proof.
  rewrite exp_kernel_gram. unfold kern. cbn [map fst snd].
  repeat f_equal.
  - lra.
  - f_equal. array_eq.
  - replace (-0.5 / 1 ^ 2 * _) with 0 by array_eq. rewrite exp_0. lra.
Qed.

(** [K_] entry by entry. *)
Lemma K_entries (X : matrix) (theta : theta_t) (nu : R) :
  K_ X theta false nu
  = mk_matrix (length X)
      (fun i j => kern theta (nth i X []) (nth j X [])
                  + nu * (if Nat.eqb i j then 1 else 0)).
Proof.
  cbn [K_]. unfold eye. rewrite mscale_mk_matrix, <- madd_mk_matrix.
  f_equal. rewrite exp_kernel_gram. unfold mk_matrix.
  rewrite (map_as_seq _ X []). apply map_ext; intro i.
  apply (map_as_seq _ X []).
Qed.

Lemma kern_sym (theta : theta_t) (x1 x2 : vec) :
  kern theta x1 x2 = kern theta x2 x1.
Proof.
  unfold kern. rewrite (dot_comm x1 x2). f_equal. f_equal. lra.
Qed.

(** Over the real numbers the expanded squared distance of a point to
    itself cancels to zero, and the kernel of a point with itself is
    [theta[1]^2]. *)
Lemma kern_self (theta : theta_t) (x : vec) : kern theta x x = snd theta ^ 2.
Proof.
  unfold kern. rewrite rowsum_sq_dot.
  replace (dot x x + dot x x - 2 * dot x x) with 0 by lra.
  rewrite Rmult_0_r, exp_0. lra.
Qed.

Lemma kern_pos (theta : theta_t) (x1 x2 : vec) :
  snd theta <> 0 -> 0 < kern theta x1 x2.
Proof.
  intro H. unfold kern. apply Rmult_lt_0_compat; [|apply exp_pos].
  assert (0 < snd theta * snd theta) by nra.
  simpl. rewrite Rmult_1_r. assumption.
Qed.

Section GramExp.

Variables (n d : nat) (u : nat -> nat -> R).

(** The Gram matrix of n points with the coordinates [u a i]. *)
Let G (i j : nat) : R := bigsum d (fun a => u a i * u a j).

Lemma qform_ext (b : nat -> R) (A B : nat -> nat -> R) :
  (forall i j, A i j = B i j) -> qform n b A = qform n b B.
Proof.
  intro H. unfold qform. apply bigsum_ext; intros i _.
  apply bigsum_ext; intros j _. now rewrite H.
Qed.

Lemma qform_plus (b : nat -> R) (A B : nat -> nat -> R) :
  qform n b (fun i j => A i j + B i j) = qform n b A + qform n b B.
Proof.
  unfold qform. rewrite <- bigsum_plus. apply bigsum_ext; intros i _.
  rewrite <- bigsum_plus. apply bigsum_ext; intros j _. lra.
Qed.

Lemma qform_scal (b : nat -> R) (c : R) (A : nat -> nat -> R) :
  qform n b (fun i j => c * A i j) = c * qform n b A.
Proof.
  unfold qform. rewrite <- bigsum_scal. apply bigsum_ext; intros i _.
  rewrite <- bigsum_scal. apply bigsum_ext; intros j _. lra.
Qed.

Lemma qform_one (b : nat -> R) :
  qform n b (fun _ _ => 1) = bigsum n b * bigsum n b.
Proof.
  unfold qform. rewrite <- bigsum_scal. apply bigsum_ext; intros i _.
  rewrite Rmult_comm, <- bigsum_scal. apply bigsum_ext; intros j _. lra.
Qed.

(** Every entrywise power of a Gram matrix has a quadratic form that is
    nowhere negative: one factor of the power is spread over the
    coordinates and absorbed into the vector. *)
Lemma qform_gram_pow (k : nat) :
  forall b : nat -> R, 0 <= qform n b (fun i j => G i j ^ k).
Proof.
  induction k as [|k IH]; intro b.
  - rewrite (qform_ext b _ (fun _ _ => 1)) by (intros; apply pow_O).
    rewrite qform_one. apply Rle_0_sqr.
  - assert (Hstep : qform n b (fun i j => G i j ^ S k)
              = bigsum d (fun a =>
                  qform n (fun i => b i * u a i) (fun i j => G i j ^ k))).
    { unfold qform. symmetry.
      rewrite (bigsum_swap d n (fun a i => bigsum n (fun j =>
                 b i * u a i * (b j * u a j) * G i j ^ k))).
      apply bigsum_ext; intros i _.
      rewrite (bigsum_swap d n (fun a j =>
                 b i * u a i * (b j * u a j) * G i j ^ k)).
      apply bigsum_ext; intros j _.
      rewrite (bigsum_ext d _
                 (fun a => (b i * b j * G i j ^ k) * (u a i * u a j)))
        by (intros; lra).
      rewrite bigsum_scal, <- tech_pow_Rmult.
      change (bigsum d (fun a => u a i * u a j)) with (G i j). ring. }
    rewrite Hstep. apply bigsum_nonneg; intros a _. apply IH.
Qed.

Lemma exp_partial_S (N : nat) (z : R) :
  exp_partial (S N) z = exp_partial N z + / INR (fact (S N)) * z ^ S N.
Proof. reflexivity. Qed.

Lemma qform_exp_partial (t : R) (N : nat) (b : nat -> R) :
  0 <= t -> 0 <= qform n b (fun i j => exp_partial N (t * G i j)).
Proof.
  intro Ht. induction N as [|N IH].
  - rewrite (qform_ext b _ (fun _ _ => 1)).
    + rewrite qform_one. apply Rle_0_sqr.
    + intros i j. unfold exp_partial. cbn. rewrite Rinv_1. lra.
  - rewrite (qform_ext b _
               (fun i j => exp_partial N (t * G i j)
                           + (/ INR (fact (S N)) * t ^ S N) * G i j ^ S N)).
    + rewrite qform_plus, qform_scal.
      pose proof (qform_gram_pow (S N) b) as Hp.
      assert (0 <= / INR (fact (S N)) * t ^ S N).
      { apply Rmult_le_pos; [|apply pow_le; assumption].
        left. apply Rinv_0_lt_compat, INR_fact_lt_0. }
      assert (0 <= / INR (fact (S N)) * t ^ S N
                   * qform n b (fun i j => G i j ^ S N))
        by (apply Rmult_le_pos; assumption).
      lra.
    + intros i j. rewrite exp_partial_S, Rpow_mult_distr. lra.
Qed.

Lemma exp_partial_cv (z : R) : Un_cv (fun N => exp_partial N z) (exp z).
Proof.
  unfold exp. destruct (exist_exp z) as [l Hl]. exact Hl.
Qed.

Lemma qform_cv (b : nat -> R) (A : nat -> nat -> nat -> R)
      (l : nat -> nat -> R) :
  (forall i j, Un_cv (fun N => A N i j) (l i j)) ->
  Un_cv (fun N => qform n b (A N)) (qform n b l).
Proof.
  intro H. unfold qform.
  apply (bigsum_cv n (fun N i => bigsum n (fun j => b i * b j * A N i j))).
  intros i _.
  apply (bigsum_cv n (fun N j => b i * b j * A N i j)).
  intros j _. apply CV_mult; [|apply H].
  intros eps Heps. exists 0%nat. intros N _.
  unfold R_dist. rewrite Rminus_diag, Rabs_R0. exact Heps.
Qed.

(** The entrywise exponential of a Gram matrix scaled by [t >= 0] has a
    quadratic form that is nowhere negative: it is the limit of the forms
    of the partial sums of the exponential series. *)
Lemma qform_gram_exp (t : R) (b : nat -> R) :
  0 <= t -> 0 <= qform n b (fun i j => exp (t * G i j)).
Proof.
  intro Ht.
  apply Rle_cv_lim with
    (Un := fun _ : nat => 0)
    (Vn := fun N => qform n b (fun i j => exp_partial N (t * G i j))).
  - intro N. apply qform_exp_partial, Ht.
  - intros eps Heps. exists 0%nat. intros N _.
    unfold R_dist. rewrite Rminus_diag, Rabs_R0. exact Heps.
  - apply (qform_cv b (fun N i j => exp_partial N (t * G i j))).
    intros i j. apply exp_partial_cv.
Qed.

End GramExp.

(** The matrix that the expressions of [K_] denote over the real numbers:
    for a length scale above zero and a jitter [nu] that is not negative it
    is symmetric and positive semi-definite.  This is a fact of exact
    arithmetic; what the same expressions return in float64 is examined
    next. *)
Lemma K_symmetric_psd (X : matrix) (theta : theta_t) (nu : R) :
  0 < fst theta ->
  0 <= nu ->
  symmetric (K_ X theta false nu) /\ psd (K_ X theta false nu).
Proof.
  intros Hl Hnu. rewrite K_entries. split.
  - intros i j. rewrite !entry_mk_matrix, (andb_comm (j <? _)%nat).
    rewrite (kern_sym theta (nth j X [])), (Nat.eqb_sym j i). reflexivity.
  - intros c Hc. unfold mk_matrix in Hc.
    rewrite length_map, length_seq in Hc.
    rewrite quad_mk_matrix by assumption.
    set (n := length X). set (d := list_max (map (@length R) X)).
    set (gam := 0.5 / fst theta ^ 2).
    assert (Hgam : 0 <= gam).
    { unfold gam. apply Rlt_le, Rdiv_lt_0_compat; [lra|].
      apply pow_lt; assumption. }
    set (sq := fun i => Rsum (map (fun a => a ^ 2) (nth i X []))).
    set (b := fun i => nth i c 0 * exp (- gam * sq i)).
    set (u := fun a i => nth a (nth i X []) 0).
    rewrite (qform_ext n _ _
               (fun i j =>
                  snd theta ^ 2 *
                  (exp (- gam * sq i) * exp (- gam * sq j) *
                   exp (2 * gam * bigsum d (fun a => u a i * u a j)))
                  + nu * (if Nat.eqb i j then 1 else 0))).
    + rewrite qform_plus, !qform_scal.
      assert (H1 : 0 <= qform n (fun i => nth i c 0)
                      (fun i j => exp (- gam * sq i) * exp (- gam * sq j) *
                         exp (2 * gam * bigsum d (fun a => u a i * u a j)))).
      { replace (qform n (fun i => nth i c 0) _)
          with (qform n b (fun i j =>
                  exp (2 * gam * bigsum d (fun a => u a i * u a j)))).
        - apply qform_gram_exp. lra.
        - unfold qform, b. apply bigsum_ext; intros i _.
          apply bigsum_ext; intros j _. ring. }
      assert (H2 : 0 <= qform n (fun i => nth i c 0)
                      (fun i j => if Nat.eqb i j then 1 else 0)).
      { unfold qform. apply bigsum_nonneg; intros i Hi.
        rewrite (bigsum_ext n _
                   (fun j => (if Nat.eqb i j then 1 else 0)
                             * (nth i c 0 * nth j c 0)))
          by (intros; lra).
        rewrite bigsum_delta by assumption. apply Rle_0_sqr. }
      assert (0 <= snd theta ^ 2) by (apply pow2_ge_0).
      apply Rplus_le_le_0_compat; apply Rmult_le_pos; assumption.
    + intros i j. f_equal. unfold kern. f_equal.
      rewrite <- !exp_plus. f_equal.
      rewrite (dot_as_bigsum _ _ d) by apply length_le_list_max.
      fold (sq i) (sq j). fold gam. unfold u.
      replace (-0.5 / fst theta ^ 2) with (- gam) by (unfold gam; lra).
      ring.
Qed.

(** *** The kernel in float64 *)

Lemma value_finite (x : float) (s : bool) (m : positive) (e : Z) :
  Prim2SF x = S754_finite s m e ->
  value x = (if s then -1 else 1) * IZR (Zpos m) * powerRZ 2 e.
Proof. intro H. unfold value. now rewrite H. Qed.

(** At a point of one feature whose square is finite the expanded squared
    distance of the point to itself is zero, and the two paths of [K_]
    return the same number. *)
Example K_f64_diagonal_one_feature :
  K_f64 numpy_sample [[0.5%float]] (1, 1)%float false nu_f64
  = [[K_f64 numpy_sample [[0.5%float]] (1, 1)%float true nu_f64]].
Proof. reflexivity. Qed.

(** C8. At the point [x8] of eight features and [theta = (1, 1)], with
    [np.sum] returning 7.09 for the sum of the squares, the inner product
    of the point with itself returning 7.090000000000001, the scalar power
    [1 ** 2 = 1] and [np.exp(8.881784197001252e-16) = 1.0000000000000009],
    the diagonal entry of the full matrix [K_(X, theta)] is
    1.000010000000001, while the diagonal-only path returns 1.00001: the
    two paths of [K_] differ by one unit in the last place. *)
Theorem K_f64_diagonal_differs (np : Numeric) :
  np_sum np (map (fun x => x * x)%float x8) = 7.09%float ->
  np_dot np x8 x8 = 7.090000000000001%float ->
  pow2 np 1 = 1%float ->
  np_exp np 8.881784197001252e-16 = 1.0000000000000009%float ->
  K_f64 np [x8] (1, 1)%float false nu_f64 = [[1.000010000000001%float]] /\
  K_f64 np [x8] (1, 1)%float true nu_f64 = 1.00001%float /\
  (1.000010000000001 =? 1.00001)%float = false.
Proof.
  intros Hsum Hdot Hpow Hexp.
  cbn [K_f64 exp_kernel_f64 map map2 fst snd length eye_f64 seq Nat.eqb].
  rewrite Hsum, Hdot, Hpow.
  change (-0.5 / 1 * (7.09 + 7.09 - 2 * 7.090000000000001))%float
    with 8.881784197001252e-16%float.
  rewrite Hexp. repeat split.
Qed.

Lemma K_f64_diagonal_differs_witness :
  np_sum numpy_sample (map (fun x => x * x)%float x8) = 7.09%float /\
  np_dot numpy_sample x8 x8 = 7.090000000000001%float /\
  pow2 numpy_sample 1 = 1%float /\
  np_exp numpy_sample 8.881784197001252e-16 = 1.0000000000000009%float /\
  K_f64 numpy_sample [x8] (1, 1)%float false nu_f64
    = [[1.000010000000001%float]] /\
  K_f64 numpy_sample [x8] (1, 1)%float true nu_f64 = 1.00001%float /\
  (1.000010000000001 =? 1.00001)%float = false.
Proof.
  do 4 (split; [reflexivity|]).
  apply (K_f64_diagonal_differs numpy_sample); reflexivity.
Defined.

(** At a point of one feature whose square overflows, the expanded squared
    distance of the point to itself is [inf - inf]: the diagonal entry of
    the full matrix is [nan], and the diagonal-only path returns 1.00001.
    A sum over one entry is that entry and an inner product of two rows of
    one entry is their product, in whatever order a routine adds. *)
Lemma K_f64_diagonal_overflow (np : Numeric) :
  (forall s, np_sum np [s] = s) ->
  (forall a b, np_dot np [a] [b] = (a * b)%float) ->
  pow2 np 1 = 1%float ->
  np_exp np nan = nan ->
  K_f64 np [[1e200%float]] (1, 1)%float false nu_f64 = [[nan]] /\
  K_f64 np [[1e200%float]] (1, 1)%float true nu_f64 = 1.00001%float.
Proof.
  intros Hsum Hdot Hpow Hexp.
  cbn [K_f64 exp_kernel_f64 map map2 fst snd length eye_f64 seq Nat.eqb].
  rewrite Hsum, Hdot, Hpow.
  change (-0.5 / 1
          * (1e200 * 1e200 + 1e200 * 1e200 - 2 * (1e200 * 1e200)))%float
    with nan.
  rewrite Hexp. split; reflexivity.
Qed.

Example K_f64_diagonal_overflow_sample :
  K_f64 numpy_sample [[1e200%float]] (1, 1)%float false nu_f64 = [[nan]].
Proof. apply (K_f64_diagonal_overflow numpy_sample); reflexivity. Qed.

(** C9. At the two points [X_close] of one feature and [theta = (1, 1)],
    with [1 ** 2 = 1], [np.exp(-0.0) = 1] and
    [np.exp(0.015625) = 1.0157477085866857], the expanded squared distance
    of the two points is -0.03125, the matrix [K_(X, theta)] is
    [[1.00001, 1.0157477085866857], [1.0157477085866857, 1.00001]], and it
    is not positive semi-definite: its quadratic form at [(1, -1)] is below
    zero. *)
Theorem K_f64_not_psd (np : Numeric) :
  (forall s, np_sum np [s] = s) ->
  (forall a b, np_dot np [a] [b] = (a * b)%float) ->
  pow2 np 1 = 1%float ->
  np_exp np neg_zero = 1%float ->
  np_exp np 0.015625 = 1.0157477085866857%float ->
  K_f64 np X_close (1, 1)%float false nu_f64
  = [[1.00001; 1.0157477085866857]; [1.0157477085866857; 1.00001]]%float /\
  ~ psd (map (map value) (K_f64 np X_close (1, 1)%float false nu_f64)).
Proof.
  intros Hsum Hdot Hpow Hexp0 Hexp.
  assert (HK : K_f64 np X_close (1, 1)%float false nu_f64
    = [[1.00001; 1.0157477085866857]; [1.0157477085866857; 1.00001]]%float).
  { cbn [K_f64 exp_kernel_f64 X_close map map2 fst snd length eye_f64 seq
         Nat.eqb].
    rewrite !Hsum, !Hdot, Hpow.
    set (x0 := 10000000.005%float). set (x1 := 10000000.0055%float).
    change (x0 * x0 + x1 * x1 - 2 * (x0 * x1))%float with (-0.03125)%float.
    change (x1 * x1 + x0 * x0 - 2 * (x1 * x0))%float with (-0.03125)%float.
    change (-0.5 / 1 * -0.03125)%float with 0.015625%float.
    change (-0.5 / 1 * (x0 * x0 + x0 * x0 - 2 * (x0 * x0)))%float
      with neg_zero.
    change (-0.5 / 1 * (x1 * x1 + x1 * x1 - 2 * (x1 * x1)))%float
      with neg_zero.
    rewrite Hexp0, Hexp. reflexivity. }
  split; [exact HK|].
  rewrite HK. intro Hpsd.
  specialize (Hpsd [1; -1] eq_refl).
  cbn [map matvec dot vmul map2 Rsum fold_right] in Hpsd.
  rewrite (value_finite 1.00001 false 4503644663366770 (-52)) in Hpsd
    by reflexivity.
  rewrite (value_finite 1.0157477085866857 false 4574521001893433 (-52))
    in Hpsd by reflexivity.
  cbn [powerRZ] in Hpsd. change (Pos.to_nat 52) with 52%nat in Hpsd.
  assert (Hp : 0 < / 2 ^ 52) by (apply Rinv_0_lt_compat, pow_lt; lra).
  set (p := / 2 ^ 52) in *. clearbody p. nra.
Qed.

Lemma K_f64_not_psd_witness :
  (forall s, np_sum numpy_sample [s] = s) /\
  (forall a b, np_dot numpy_sample [a] [b] = (a * b)%float) /\
  pow2 numpy_sample 1 = 1%float /\
  np_exp numpy_sample neg_zero = 1%float /\
  np_exp numpy_sample 0.015625 = 1.0157477085866857%float /\
  K_f64 numpy_sample X_close (1, 1)%float false nu_f64
  = [[1.00001; 1.0157477085866857]; [1.0157477085866857; 1.00001]]%float /\
  ~ psd (map (map value)
           (K_f64 numpy_sample X_close (1, 1)%float false nu_f64)).
Proof.
  do 5 (split; [reflexivity|]).
  apply (K_f64_not_psd numpy_sample); reflexivity.
Defined.

(** ** The posterior mode solver *)

Section PosteriorMode.

Context (L : Linalg).
Variables (X : matrix) (y : vec) (K_a : matrix) (tol : R).

Let n : nat := length X.

(** The body of the loop computes the Newton update. *)
Lemma posterior_body_update (a : vec) :
  fst (posterior_body L X y K_a tol a) = newton_update L n K_a y a.
Proof. reflexivity. Qed.

Lemma any_gt_true (d : vec) :
  any_gt d tol = true <-> Exists (fun x => tol < x) d.
Proof.
  unfold any_gt. rewrite existsb_exists, Exists_exists.
  split; intros [x [Hin Hx]]; exists x; split; trivial.
  - destruct (Rlt_dec tol x); [assumption | discriminate].
  - destruct (Rlt_dec tol x); [reflexivity | contradiction].
Qed.

(** The loop breaks exactly when no coordinate of the difference
    exceeds the tolerance. *)
Lemma posterior_body_stop (a : vec) :
  snd (posterior_body L X y K_a tol a) = true <->
  ~ exceeds tol (newton_update L n K_a y a) a.
Proof.
  unfold posterior_body, exceeds; cbn [snd].
  fold (W_ a). change (length X) with n.
  rewrite negb_true_iff, <- any_gt_true.
  unfold newton_update. fold (W_ a).
  destruct (any_gt _ tol); split; intro H; try discriminate; auto.
  exfalso; apply H; reflexivity.
Qed.

Lemma exceeds_dec (a_new a : vec) :
  exceeds tol a_new a \/ ~ exceeds tol a_new a.
Proof.
  unfold exceeds. rewrite <- any_gt_true.
  destruct (any_gt _ tol); [left; reflexivity | right; discriminate].
Qed.

Lemma iterate_S (k : nat) :
  iterate L n K_a y (S k) = newton_update L n K_a y (iterate L n K_a y k).
Proof. reflexivity. Qed.

(** What the loop does from pass [i] on with [fuel] passes left. *)
Lemma posterior_loop_spec (fuel i : nat) (a : vec) :
  a = iterate L n K_a y i ->
  let k := fst (posterior_loop L X y K_a tol fuel i a) in
  (i <= k <= i + fuel)%nat /\
  snd (posterior_loop L X y K_a tol fuel i a) = iterate L n K_a y k /\
  (forall j : nat, (i <= j)%nat -> (S j < k)%nat ->
     exceeds tol (iterate L n K_a y (S j)) (iterate L n K_a y j)) /\
  ((k < i + fuel)%nat ->
     exists j : nat, k = S j /\ (i <= j)%nat /\
       ~ exceeds tol (iterate L n K_a y (S j)) (iterate L n K_a y j)).
Proof.
  revert i a. induction fuel as [|fuel IH]; intros i a Ha; cbn zeta.
  - cbn. repeat split; try lia. assumption.
  - cbn [posterior_loop].
    pose proof (posterior_body_update a) as Hu.
    pose proof (posterior_body_stop a) as Hs.
    destruct (posterior_body L X y K_a tol a) as [a_new stop].
    cbn [fst snd] in Hu, Hs. subst a_new.
    assert (Hnew : newton_update L n K_a y a = iterate L n K_a y (S i))
      by (rewrite iterate_S, Ha; reflexivity).
    destruct stop.
    + cbn [fst snd]. repeat split; try lia.
      * assumption.
      * exists i. repeat split; try lia.
        rewrite iterate_S, <- Ha. apply Hs. reflexivity.
    + specialize (IH (S i) _ Hnew). cbn zeta in IH.
      destruct IH as (Hk & Hr & Hbefore & Hearly).
      repeat split; try lia.
      * assumption.
      * intros j Hij Hjk.
        destruct (Nat.eq_dec i j) as [<- | Hne].
        -- rewrite iterate_S, <- Ha.
           destruct (exceeds_dec (newton_update L n K_a y a) a) as [He|He];
             [exact He | apply Hs in He; discriminate].
        -- apply Hbefore; lia.
      * intro Hlt. destruct Hearly as (j & -> & Hij & Hconv); [lia|].
        exists j. repeat split; try lia. assumption.
Qed.

End PosteriorMode.

(** C4. From the all-zero vector, [posterior_mode] repeats the update
    [a_new = K_a . pinv(I + W . K_a) . (y - sigmoid(a) + W . a)] with
    [W = diag(sigmoid(a) . (1 - sigmoid(a)))]: it returns the k-th iterate
    for some k of at most [max_iter]; at every earlier pass some coordinate
    of [|a_new - a|] exceeded [tol]; and when k falls short of [max_iter]
    the last pass left no coordinate above [tol]. *)
Theorem posterior_mode_newton (L : Linalg) (X : matrix) (y : vec)
        (K_a : matrix) (max_iter : Z) (tol : R) :
  exists k : nat,
    (k <= Z.to_nat max_iter)%nat /\
    posterior_mode L X y K_a max_iter tol = iterate L (length X) K_a y k /\
    (forall j : nat, (S j < k)%nat ->
       exceeds tol (iterate L (length X) K_a y (S j))
                   (iterate L (length X) K_a y j)) /\
    ((k < Z.to_nat max_iter)%nat ->
       exists j : nat, k = S j /\
         ~ exceeds tol (iterate L (length X) K_a y (S j))
                       (iterate L (length X) K_a y j)).
Proof.
  unfold posterior_mode, posterior_mode_run.
  destruct (posterior_loop_spec L X y K_a tol (Z.to_nat max_iter) 0
              (zeros_like y) eq_refl) as (Hk & Hr & Hbefore & Hearly).
  exists (fst (posterior_loop L X y K_a tol (Z.to_nat max_iter) 0
                 (zeros_like y))).
  repeat split.
  - lia.
  - exact Hr.
  - intros j Hj. apply Hbefore; [lia | exact Hj].
  - intro Hlt. destruct Hearly as (j & Hj & _ & Hconv); [lia|].
    exists j. split; assumption.
Qed.

(** C5. With [max_iter = 0] the solver makes no pass and returns the
    all-zero vector with one entry per label. *)
Theorem posterior_mode_max_iter_0 (L : Linalg) (X : matrix) (y : vec)
        (K_a : matrix) (tol : R) :
  posterior_mode_run L X y K_a 0 tol = (0%nat, repeat 0 (length y)) /\
  posterior_mode L X y K_a 0 tol = repeat 0 (length y).
Proof.
  unfold posterior_mode, posterior_mode_run. cbn.
  rewrite zeros_like_repeat. split; reflexivity.
Qed.


(** ** The marginal likelihood objective *)

Lemma one_point_zero : 1.0 = 1.
Proof. lra. Qed.

(** C7. The objective of [nll_fn] evaluates, wherever the exact inverse of
    [K_a] exists, to [- ll] with [ll] the Laplace approximation
    [-0.5 a_h^T K_a^-1 a_h - 0.5 logdet(K_a) - 0.5 logdet(W + K_a^-1)
     + y^T a_h - sum (log (1 + exp a_h))], where
    [K_a = Kernel(X, X, theta) + nu I], [a_h] is the posterior mode for
    that [K_a], [W] is built from [a_h] and each [logdet] is the logarithm
    of the absolute determinant given by [slogdet]; where the inverse does
    not exist the exception of [inv] is raised. *)
Theorem nll_fn_laplace (L : Linalg) (X : matrix) (y : vec) (theta : theta_t) :
  let K_a := madd (exp_kernel X X theta)
                  (mscale nu_default (eye (length X))) in
  let a_h := posterior_mode L X y K_a 10 1e-9 in
  let W := diag (map (fun a => sigmoid a * (1 - sigmoid a)) a_h) in
  nll_fn L X y theta =
  match inv L K_a with
  | Ok K_a_inv => Ok (- laplace_ll L K_a K_a_inv W y a_h)
  | Raise e => Raise e
  end.
Proof.
  cbn zeta. unfold nll_fn. cbn [K_].
  destruct (inv L _) as [K_a_inv | e]; [|reflexivity].
  unfold laplace_ll, logabsdet, W_. rewrite one_point_zero. reflexivity.
Qed.

(** ** Methods that only read the object *)

Create HintDb readonly.

Lemma readonly_ret {A : Type} (a : A) : readonly (ret a).
Proof. intro s. reflexivity. Qed.

Lemma readonly_lift {A : Type} (r : result A) : readonly (lift r).
Proof. intro s. reflexivity. Qed.

Lemma readonly_raise {A : Type} (e : exception) : readonly (@raise A e).
Proof. intro s. reflexivity. Qed.

Lemma readonly_bind {A B : Type} (m : M A) (k : A -> M B) :
  readonly m -> (forall a : A, readonly (k a)) -> readonly (bind m k).
Proof.
  intros Hm Hk s. unfold bind.
  specialize (Hm s). destruct (m s) as [[a | e] s']; cbn in Hm; subst s'.
  - apply Hk.
  - reflexivity.
Qed.

Lemma readonly_getattr_X : readonly getattr_X.
Proof. intro s. unfold getattr_X. destruct (self_X s); reflexivity. Qed.

Lemma readonly_getattr_y : readonly getattr_y.
Proof. intro s. unfold getattr_y. destruct (self_y s); reflexivity. Qed.

Lemma readonly_getattr_theta : readonly getattr_theta.
Proof. intro s. reflexivity. Qed.

Lemma readonly_subscript (th : option theta_t) : readonly (subscript th).
Proof. destruct th; intro s; reflexivity. Qed.

Lemma readonly_global_y (module_y : option vec) :
  readonly (global_y module_y).
Proof. destruct module_y; intro s; reflexivity. Qed.

#[export] Hint Resolve readonly_ret readonly_lift readonly_raise
  readonly_getattr_X readonly_getattr_y readonly_getattr_theta
  readonly_subscript readonly_global_y : readonly.

Ltac readonly_steps :=
  repeat (first [ apply readonly_bind; [auto with readonly | intro]
                | solve [auto with readonly] ]).

Lemma readonly_mean_var (L : Linalg) (X_test : matrix) :
  readonly (mean_var L X_test).
Proof. unfold mean_var. readonly_steps. Qed.

Lemma readonly_predict (L : Linalg) (X_test : matrix) :
  readonly (predict L X_test).
Proof.
  unfold predict. apply readonly_bind; [apply readonly_mean_var|].
  intros [a_mu a_var]. apply readonly_ret.
Qed.

Lemma readonly_predict_params (L : Linalg) (module_y : option vec)
      (X_test : matrix) :
  readonly (predict_params L module_y X_test).
Proof. unfold predict_params. readonly_steps. Qed.

(** C10. [predict], [mean_var] and [predict_params] leave the object as
    they found it, whatever its state and whether they return or raise; a
    second call therefore computes the same result from the same fields. *)
Theorem predictive_calls_read_only (L : Linalg) (module_y : option vec)
        (X_test : matrix) (s : GPC) :
  (snd (predict L X_test s) = s /\
   snd (mean_var L X_test s) = s /\
   snd (predict_params L module_y X_test s) = s) /\
  (predict L X_test (snd (predict L X_test s)) = predict L X_test s /\
   mean_var L X_test (snd (mean_var L X_test s)) = mean_var L X_test s /\
   predict_params L module_y X_test
     (snd (predict_params L module_y X_test s))
   = predict_params L module_y X_test s).
Proof.
  pose proof (readonly_predict L X_test s) as Hp.
  pose proof (readonly_mean_var L X_test s) as Hm.
  pose proof (readonly_predict_params L module_y X_test s) as Hpp.
  repeat split; try assumption.
  - now rewrite Hp.
  - now rewrite Hm.
  - now rewrite Hpp.
Qed.

(** ** Calls on a model that was never fitted *)

Lemma mean_var_not_fitted (L : Linalg) (X_test : matrix) (s : GPC) :
  self_theta s = None ->
  mean_var L X_test s =
  (Raise (match self_X s with
          | None => AttributeError "X"
          | Some _ => TypeError
          end), s).
Proof.
  intro Hth. unfold mean_var, bind, getattr_X, getattr_theta.
  destruct (self_X s); [|reflexivity].
  rewrite Hth. reflexivity.
Qed.

Lemma predict_not_fitted (L : Linalg) (X_test : matrix) (s : GPC) :
  self_theta s = None ->
  predict L X_test s =
  (Raise (match self_X s with
          | None => AttributeError "X"
          | Some _ => TypeError
          end), s).
Proof.
  intro Hth. unfold predict, bind at 1.
  rewrite (mean_var_not_fitted L X_test s Hth). reflexivity.
Qed.

Lemma predict_params_not_fitted (L : Linalg) (module_y : option vec)
      (X_test : matrix) (s : GPC) :
  self_theta s = None ->
  predict_params L module_y X_test s =
  (Raise (match self_X s with
          | None => AttributeError "X"
          | Some _ => TypeError
          end), s).
Proof.
  intro Hth. unfold predict_params, bind, getattr_X, getattr_theta.
  destruct (self_X s); [|reflexivity].
  rewrite Hth. reflexivity.
Qed.

(** C2, as amended. On a model whose [theta] is still [None] each of
    [predict], [predict_params] and [mean_var] raises and returns nothing:
    an [AttributeError] for the missing attribute [X] when no training data
    was assigned, a [TypeError] from subscripting [None] when it was; the
    object is left as it was. *)
Theorem not_fitted_call_raises (L : Linalg) (module_y : option vec)
        (X_test : matrix) (s : GPC) :
  self_theta s = None ->
  let e := match self_X s with
           | None => AttributeError "X"
           | Some _ => TypeError
           end in
  predict L X_test s = (Raise e, s) /\
  predict_params L module_y X_test s = (Raise e, s) /\
  mean_var L X_test s = (Raise e, s).
Proof.
  intro Hth. cbn zeta. repeat split.
  - apply predict_not_fitted, Hth.
  - apply predict_params_not_fitted, Hth.
  - apply mean_var_not_fitted, Hth.
Qed.

Lemma not_fitted_call_raises_witness :
  self_theta __init__ = None /\
  predict linalg_1x1 [[0]] __init__
    = (Raise (AttributeError "X"), __init__) /\
  predict_params linalg_1x1 None [[0]] __init__
    = (Raise (AttributeError "X"), __init__) /\
  mean_var linalg_1x1 [[0]] __init__
    = (Raise (AttributeError "X"), __init__).
Proof.
  split; [reflexivity|].
  exact (not_fitted_call_raises linalg_1x1 None [[0]] __init__ eq_refl).
Defined.

(** C2, as stated, fails: a fresh model raises an [AttributeError], which
    is not a [NotFittedError]. *)
Lemma not_fitted_call_is_no_NotFittedError :
  ~ (forall (L : Linalg) (module_y : option vec) (X_test : matrix)
            (s : GPC),
       unfitted s ->
       raises "NotFittedError" (fst (predict L X_test s)) /\
       raises "NotFittedError" (fst (predict_params L module_y X_test s)) /\
       raises "NotFittedError" (fst (mean_var L X_test s))).
Proof.
  intro Hclaim.
  destruct (Hclaim linalg_1x1 None [[0]] __init__) as (_ & _ & Hmv).
  - repeat split.
  - rewrite (mean_var_not_fitted linalg_1x1 [[0]] __init__ eq_refl) in Hmv.
    cbn in Hmv. discriminate.
Qed.

(** ** The lifecycle of the object *)

Lemma fit_outcome (L : Linalg) (minimize : optimizer) (X : matrix) (y : vec)
      (s : GPC) :
  fit L minimize X y s =
  match minimize (nll_fn L X y) (1, 1) [(1e-3, None); (1e-3, None)] with
  | Ok res => (Ok tt, {| self_theta := Some (res_x res);
                         self_X := Some X;
                         self_y := Some y |})
  | Raise e => (Raise e, {| self_theta := self_theta s;
                            self_X := Some X;
                            self_y := Some y |})
  end.
Proof.
  unfold fit, bind, setattr_X, setattr_y, setattr_theta, lift.
  destruct (minimize _ _ _); reflexivity.
Qed.

Lemma fit_data_before_theta (L : Linalg) (minimize : optimizer) (X : matrix)
      (y : vec) (s : GPC) :
  data_before_theta (snd (fit L minimize X y s)).
Proof.
  rewrite fit_outcome. unfold data_before_theta.
  destruct (minimize _ _ _); cbn; repeat split; intros; discriminate.
Qed.

Lemma reachable_invariant (L : Linalg) (module_y : option vec)
      (minimize : optimizer) (s : GPC) :
  reachable L module_y minimize s -> data_before_theta s.
Proof.
  induction 1 as [ | s X y _ _ | s Xt _ IH | s Xt _ IH | s Xt _ IH ].
  - unfold data_before_theta; cbn. repeat split; intros; congruence.
  - apply fit_data_before_theta.
  - now rewrite readonly_mean_var.
  - now rewrite readonly_predict.
  - now rewrite readonly_predict_params.
Qed.

(** C3, as amended. A fresh model has none of [X], [y], [theta]; at every
    observable point [X] and [y] are set together and [theta] is not set
    without them; a call to [fit] that returns leaves all three set, and a
    call that raises leaves [X] and [y] set to the new training data and
    [theta] as it was. *)
Theorem lifecycle_of_model (L : Linalg) (module_y : option vec)
        (minimize : optimizer) (s : GPC) :
  reachable L module_y minimize s ->
  unfitted __init__ /\
  data_before_theta s /\
  forall (X : matrix) (y : vec),
    let s' := snd (fit L minimize X y s) in
    self_X s' = Some X /\ self_y s' = Some y /\
    match fst (fit L minimize X y s) with
    | Ok _ => fitted s'
    | Raise _ => self_theta s' = self_theta s
    end.
Proof.
  intro Hr. split; [repeat split|].
  split; [eapply reachable_invariant; eassumption|].
  intros X y. cbn zeta. rewrite fit_outcome.
  destruct (minimize _ _ _); cbn; repeat split; discriminate.
Qed.

Lemma lifecycle_of_model_witness :
  reachable linalg_1x1 None minimize_at_start
            (snd (fit linalg_1x1 minimize_at_start [[0]] [1] __init__)) /\
  (unfitted __init__ /\
   data_before_theta
     (snd (fit linalg_1x1 minimize_at_start [[0]] [1] __init__)) /\
   forall (X : matrix) (y : vec),
     let s' := snd (fit linalg_1x1 minimize_at_start X y
                      (snd (fit linalg_1x1 minimize_at_start [[0]] [1]
                              __init__))) in
     self_X s' = Some X /\ self_y s' = Some y /\
     match fst (fit linalg_1x1 minimize_at_start X y
                  (snd (fit linalg_1x1 minimize_at_start [[0]] [1]
                          __init__))) with
     | Ok _ => fitted s'
     | Raise _ =>
         self_theta s'
         = self_theta (snd (fit linalg_1x1 minimize_at_start [[0]] [1]
                              __init__))
     end).
Proof.
  assert (Hr : reachable linalg_1x1 None minimize_at_start
                 (snd (fit linalg_1x1 minimize_at_start [[0]] [1] __init__)))
    by (apply reach_fit, reach_init).
  split; [exact Hr|].
  exact (lifecycle_of_model linalg_1x1 None minimize_at_start _ Hr).
Defined.

(** C3, as stated, fails: a call to [fit] in which the optimizer raises
    leaves [X] and [y] set and [theta] unset. *)
Lemma failed_fit_is_partial :
  ~ (forall (L : Linalg) (module_y : option vec) (minimize : optimizer)
            (s : GPC),
       reachable L module_y minimize s -> lifecycle_ok s).
Proof.
  intro Hclaim.
  destruct (Hclaim linalg_1x1 None minimize_raising
              (snd (fit linalg_1x1 minimize_raising [[0]] [1] __init__)))
    as [(_ & HX & _) | (Hth & _)].
  - apply reach_fit, reach_init.
  - rewrite fit_outcome in HX. cbn in HX. discriminate.
  - rewrite fit_outcome in Hth. cbn in Hth. apply Hth. reflexivity.
Qed.

(** ** The two predictive accessors *)

Lemma newton_update_length (L : Linalg) (n : nat) (K_a : matrix) (y a : vec) :
  length (newton_update L n K_a y a) = length K_a.
Proof. unfold newton_update, matvec, matmul, dot_T. now rewrite !length_map. Qed.

Lemma posterior_loop_length (L : Linalg) (X : matrix) (y : vec)
      (K_a : matrix) (tol : R) (fuel i : nat) (a : vec) :
  length a = length K_a ->
  length (snd (posterior_loop L X y K_a tol fuel i a)) = length K_a.
Proof.
  revert i a. induction fuel as [|fuel IH]; intros i a Ha;
    cbn [posterior_loop].
  - exact Ha.
  - pose proof (posterior_body_update L X y K_a tol a) as Hu.
    destruct (posterior_body L X y K_a tol a) as [a_new stop].
    cbn [fst] in Hu.
    assert (length a_new = length K_a)
      by (rewrite Hu; apply newton_update_length).
    destruct stop; [assumption | now apply IH].
Qed.

(** The mode has one entry per training point. *)
Lemma posterior_mode_length (L : Linalg) (X : matrix) (y : vec)
      (K_a : matrix) (max_iter : Z) (tol : R) :
  length y = length K_a ->
  length (posterior_mode L X y K_a max_iter tol) = length K_a.
Proof.
  intro H. unfold posterior_mode, posterior_mode_run.
  apply posterior_loop_length. unfold zeros_like. now rewrite length_map.
Qed.

(** [mean_var] on a fitted model. *)
Lemma mean_var_fitted (L : Linalg) (X_test X : matrix) (y : vec)
      (theta : theta_t) :
  let s := {| self_theta := Some theta; self_X := Some X;
              self_y := Some y |} in
  let K_a := K_ X theta false nu_default in
  let K_s := exp_kernel X X_test theta in
  let a_h := posterior_mode L X y K_a 10 1e-9 in
  let R_inv := pinv L (madd (pinv L (W_ a_h)) K_a) in
  mean_var L X_test s =
  (Ok (matvec (transpose K_s) (vsub y (map sigmoid a_h)),
       map (fun c => K_ X_test theta true nu_default - c)
           (colsum (mmul (matmul R_inv K_s) K_s))), s).
Proof. reflexivity. Qed.

(** [predict_params] on a fitted model, the module-level [y] being bound
    to [y']: the mode and the mean are computed from [y'], not from the
    labels of the model, and the exact inverses may raise. *)
Lemma predict_params_fitted (L : Linalg) (y' : vec) (X_test X : matrix)
      (y : vec) (theta : theta_t) :
  let s := {| self_theta := Some theta; self_X := Some X;
              self_y := Some y |} in
  let K_a := K_ X theta false nu_default in
  let K_s := exp_kernel X X_test theta in
  let a_h := posterior_mode L X y' K_a 10 1e-9 in
  predict_params L (Some y') X_test s =
  match inv L (W_ a_h) with
  | Raise e => (Raise e, s)
  | Ok W_inv =>
      match inv L (madd W_inv K_a) with
      | Raise e => (Raise e, s)
      | Ok R_inv =>
          (Ok (matvec (transpose K_s) (vsub y' (map sigmoid a_h)),
               map (fun c => K_ X_test theta true nu_default - c)
                   (colsum (mmul (matmul R_inv K_s) K_s))), s)
      end
  end.
Proof.
  cbn zeta.
  unfold predict_params, bind, getattr_X, getattr_theta, subscript,
    global_y, ret, lift.
  cbn [self_X self_theta self_y].
  destruct (inv L (W_ _)) as [W_inv|e]; [|reflexivity].
  destruct (inv L (madd W_inv _)) as [R_inv|e]; reflexivity.
Qed.

(** [predict_params] on a fitted model when the module has no [y]. *)
Lemma predict_params_unbound_y (L : Linalg) (X_test X : matrix) (y : vec)
      (theta : theta_t) :
  let s := {| self_theta := Some theta; self_X := Some X;
              self_y := Some y |} in
  predict_params L None X_test s = (Raise (NameError "y"), s).
Proof. reflexivity. Qed.

(** Where the module-level [y] is the model's own [y] and the exact
    inverses exist and are the pseudo-inverses, the two accessors agree. *)
Lemma predict_params_agrees (L : Linalg) (X_test X : matrix) (y : vec)
      (theta : theta_t) :
  let s := {| self_theta := Some theta; self_X := Some X;
              self_y := Some y |} in
  let K_a := K_ X theta false nu_default in
  let a_h := posterior_mode L X y K_a 10 1e-9 in
  inv L (W_ a_h) = Ok (pinv L (W_ a_h)) ->
  inv L (madd (pinv L (W_ a_h)) K_a)
    = Ok (pinv L (madd (pinv L (W_ a_h)) K_a)) ->
  predict_params L (Some y) X_test s = mean_var L X_test s.
Proof.
  cbn zeta. intros HW HR.
  rewrite predict_params_fitted, mean_var_fitted. cbn zeta.
  rewrite HW, HR. reflexivity.
Qed.

Lemma one_point_mean (l : R) (a_h : vec) :
  length a_h = 1%nat ->
  exists a : R,
    matvec (transpose (exp_kernel [[0]] [[0]] (1, 1)))
           (vsub [l] (map sigmoid a_h))
    = [kern (1, 1) [0] [0] * (l - sigmoid a) + 0].
Proof.
  intro Hl. destruct a_h as [|a [|? ?]]; try discriminate. exists a.
  rewrite exp_kernel_gram. reflexivity.
Qed.

(** C1, the code at a failing input. The model is fitted on the single
    point 0 with label 1 and the module-level [y] holds the label 0:
    whatever [numpy.linalg] computes, [predict_params] does not return
    what [mean_var] returns; its mean is below zero, or it raises, where
    the mean of [mean_var] is above zero. *)
Theorem predict_params_differs (L : Linalg) :
  fst (predict_params L (Some [0]) [[0]] gp_one)
  <> fst (mean_var L [[0]] gp_one).
Proof.
  unfold gp_one. rewrite mean_var_fitted, predict_params_fitted.
  destruct (inv L (W_ _)) as [W_inv|e]; [|discriminate].
  destruct (inv L (madd W_inv _)) as [R_inv|e]; [|discriminate].
  cbn [fst].
  destruct (one_point_mean 0
              (posterior_mode L [[0]] [0]
                 (K_ [[0]] (1, 1) false nu_default) 10 1e-9))
    as [a0 H0].
  { apply posterior_mode_length. reflexivity. }
  destruct (one_point_mean 1
              (posterior_mode L [[0]] [1]
                 (K_ [[0]] (1, 1) false nu_default) 10 1e-9))
    as [a1 H1].
  { apply posterior_mode_length. reflexivity. }
  rewrite H0, H1. intro Heq.
  assert (Hmu : kern (1, 1) [0] [0] * (0 - sigmoid a0) + 0
                = kern (1, 1) [0] [0] * (1 - sigmoid a1) + 0) by congruence.
  pose proof (kern_pos (1, 1) [0] [0]) as Hk. cbn [snd] in Hk.
  pose proof (sigmoid_bounds a0). pose proof (sigmoid_bounds a1).
  assert (0 < kern (1, 1) [0] [0]) by (apply Hk; lra).
  nra.
Qed.
(** ** More on the kernel evaluator *)

Lemma entry_map_map {A B : Type} (f : A -> B -> R) (l1 : list A)
      (l2 : list B) (d1 : A) (d2 : B) (i j : nat) :
  entry (map (fun a => map (f a) l2) l1) i j
  = if (i <? length l1)%nat && (j <? length l2)%nat
    then f (nth i l1 d1) (nth j l2 d2) else 0.
Proof.
  unfold entry.
  destruct (Nat.ltb_spec i (length l1)) as [Hi|Hi]; cbn [andb].
  - rewrite (nth_indep _ [] (map (f d1) l2)) by (now rewrite length_map).
    rewrite (map_nth (fun a => map (f a) l2)).
    destruct (Nat.ltb_spec j (length l2)) as [Hj|Hj].
    + rewrite (nth_indep _ 0 (f (nth i l1 d1) d2)) by (now rewrite length_map).
      now rewrite map_nth.
    + apply nth_overflow. now rewrite length_map.
  - replace (nth i _ []) with (@nil R)
      by (symmetry; apply nth_overflow; now rewrite length_map).
    now destruct j.
Qed.

Lemma entry_exp_kernel (X1 X2 : matrix) (theta : theta_t) (i j : nat) :
  entry (exp_kernel X1 X2 theta) i j
  = if (i <? length X1)%nat && (j <? length X2)%nat
    then kern theta (nth i X1 []) (nth j X2 []) else 0.
Proof. rewrite exp_kernel_gram. apply entry_map_map. Qed.

(** X3. [exp_kernel(X1, X2, theta)] has one row per point of [X1] and one
    column per point of [X2], whatever the two numbers of points. *)
Theorem exp_kernel_shape (X1 X2 : matrix) (theta : theta_t) :
  length (exp_kernel X1 X2 theta) = length X1 /\
  Forall (fun row => length row = length X2) (exp_kernel X1 X2 theta).
Proof.
  rewrite exp_kernel_gram. split; [apply length_map|].
  apply Forall_forall. intros row Hin. apply in_map_iff in Hin.
  destruct Hin as (x & <- & _). apply length_map.
Qed.

(** X4. Exchanging the two point sets transposes the kernel matrix: entry
    (i, j) of [exp_kernel(X1, X2, theta)] is entry (j, i) of
    [exp_kernel(X2, X1, theta)]. *)
Theorem exp_kernel_swap (X1 X2 : matrix) (theta : theta_t) (i j : nat) :
  entry (exp_kernel X1 X2 theta) i j = entry (exp_kernel X2 X1 theta) j i.
Proof.
  rewrite !entry_exp_kernel, andb_comm, kern_sym. reflexivity.
Qed.

(** ** More on the posterior mode solver *)

(** X8. The mode returned by [posterior_mode] has one entry per row of
    [K_a] as soon as one pass is made, and one entry per label when
    [max_iter] allows no pass. *)
Theorem posterior_mode_shape (L : Linalg) (X : matrix) (y : vec)
        (K_a : matrix) (max_iter : Z) (tol : R) :
  length (posterior_mode L X y K_a max_iter tol)
  = if (0 <? max_iter)%Z then length K_a else length y.
Proof.
  unfold posterior_mode, posterior_mode_run.
  destruct (Z.ltb_spec 0 max_iter) as [Hm|Hm].
  - destruct (Z.to_nat max_iter) as [|fuel] eqn:Hf; [lia|].
    cbn [posterior_loop].
    pose proof (posterior_body_update L X y K_a tol (zeros_like y)) as Hu.
    destruct (posterior_body L X y K_a tol (zeros_like y)) as [a_new stop].
    cbn [fst] in Hu.
    assert (Hlen : length a_new = length K_a)
      by (rewrite Hu; apply newton_update_length).
    destruct stop; [exact Hlen | now apply posterior_loop_length].
  - replace (Z.to_nat max_iter) with 0%nat by lia.
    cbn. unfold zeros_like. apply length_map.
Qed.

Lemma posterior_loop_more_fuel (L : Linalg) (X : matrix) (y : vec)
      (K_a : matrix) (tol : R) (fuel fuel' i : nat) (a : vec) :
  (fuel <= fuel')%nat ->
  (fst (posterior_loop L X y K_a tol fuel i a) < i + fuel)%nat ->
  posterior_loop L X y K_a tol fuel' i a
  = posterior_loop L X y K_a tol fuel i a.
Proof.
  revert fuel' i a. induction fuel as [|fuel IH]; intros fuel' i a Hle Hlt.
  - cbn in Hlt. lia.
  - destruct fuel' as [|fuel']; [lia|]. cbn [posterior_loop] in *.
    destruct (posterior_body L X y K_a tol a) as [a_new stop].
    destruct stop; [reflexivity|].
    apply IH; lia.
Qed.

(** X9. When [posterior_mode] stops before [max_iter] passes, a larger
    [max_iter] changes neither the number of passes nor the mode. *)
Theorem posterior_mode_budget_stable (L : Linalg) (X : matrix) (y : vec)
        (K_a : matrix) (max_iter max_iter' : Z) (tol : R) :
  (Z.of_nat (fst (posterior_mode_run L X y K_a max_iter tol)) < max_iter)%Z ->
  (max_iter <= max_iter')%Z ->
  posterior_mode_run L X y K_a max_iter' tol
  = posterior_mode_run L X y K_a max_iter tol /\
  posterior_mode L X y K_a max_iter' tol
  = posterior_mode L X y K_a max_iter tol.
Proof.
  intros Hlt Hle. unfold posterior_mode.
  assert (H : posterior_mode_run L X y K_a max_iter' tol
              = posterior_mode_run L X y K_a max_iter tol).
  { unfold posterior_mode_run in *. apply posterior_loop_more_fuel; lia. }
  split; [exact H | now rewrite H].
Qed.

(** The first Newton update on one training point with label 1 and
    [K_a = [[1]]] lies between 0 and 1, so with a tolerance of 10 the solver
    stops after its first pass. *)
Lemma one_point_first_update :
  exists v : R,
    newton_update linalg_1x1 1 [[1]] [1] [0] = [v] /\ 0 < v < 1.
Proof.
  unfold newton_update, matmul, dot_T, transpose, col, ncols, diag, eye,
    mk_matrix, madd, vadd, vsub, matvec, dot, vmul, Rsum.
  cbn [map map2 seq length nth Nat.eqb fold_right pinv linalg_1x1].
  eexists. split; [reflexivity|].
  pose proof (sigmoid_bounds 0) as Hs.
  set (sg := sigmoid 0) in *. clearbody sg.
  assert (Hq : 0 < 1 + (sg * (1 - sg) * 1 + 0)) by nra.
  destruct (Req_dec_T _ 0) as [H0|_]; [lra|].
  set (q := 1 + _) in *.
  assert (Hi : 0 < / q) by (now apply Rinv_0_lt_compat).
  assert (Hi1 : / q < 1).
  { rewrite <- Rinv_1. apply Rinv_lt_contravar; unfold q; nra. }
  set (r := / q) in *. clearbody r. clear Hq. clearbody q. nra.
Qed.

Lemma one_point_stops_at_once :
  posterior_mode_run linalg_1x1 [[0]] [1] [[1]] 10 10
  = (1%nat, newton_update linalg_1x1 1 [[1]] [1] [0]).
Proof.
  unfold posterior_mode_run. change (Z.to_nat 10) with 10%nat.
  cbn [posterior_loop].
  pose proof (posterior_body_update linalg_1x1 [[0]] [1] [[1]] 10
                (zeros_like [1])) as Hu.
  pose proof (posterior_body_stop linalg_1x1 [[0]] [1] [[1]] 10
                (zeros_like [1])) as Hs.
  destruct (posterior_body linalg_1x1 [[0]] [1] [[1]] 10 (zeros_like [1]))
    as [a_new stop].
  cbn [fst snd] in Hu, Hs.
  change (length [[0]]) with 1%nat in Hu, Hs.
  change (zeros_like [1]) with [0] in Hu, Hs.
  assert (Hstop : stop = true).
  { apply Hs. destruct one_point_first_update as (v & Hv & Hb).
    rewrite Hv. unfold exceeds. cbn [vsub map2 map].
    intro Hex. inversion Hex as [? ? Hd | ? ? Hd]; subst.
    - rewrite Rminus_0_r, Rabs_pos_eq in Hd; lra.
    - inversion Hd. }
  rewrite Hstop, Hu. reflexivity.
Qed.

Lemma posterior_mode_budget_stable_witness :
  Z.lt (Z.of_nat (fst (posterior_mode_run linalg_1x1 [[0]] [1] [[1]] 10 10)))
       10 /\
  (10 <= 20)%Z /\
  posterior_mode_run linalg_1x1 [[0]] [1] [[1]] 20 10
  = posterior_mode_run linalg_1x1 [[0]] [1] [[1]] 10 10 /\
  posterior_mode linalg_1x1 [[0]] [1] [[1]] 20 10
  = posterior_mode linalg_1x1 [[0]] [1] [[1]] 10 10.
Proof.
  assert (H1 : Z.lt (Z.of_nat (fst (posterior_mode_run linalg_1x1 [[0]] [1]
                                        [[1]] 10 10))) 10)
    by (rewrite one_point_stops_at_once; cbn; lia).
  assert (H2 : (10 <= 20)%Z) by lia.
  split; [exact H1|]. split; [exact H2|].
  exact (posterior_mode_budget_stable linalg_1x1 [[0]] [1] [[1]] 10 20 10
           H1 H2).
Defined.

(** X10. Without training points the solver makes one pass, finds no
    coordinate above the tolerance and returns the empty vector. *)
Theorem posterior_mode_no_training_points (L : Linalg) (max_iter : Z)
        (tol : R) :
  (0 < max_iter)%Z ->
  posterior_mode_run L [] [] [] max_iter tol = (1%nat, []).
Proof.
  intro Hm. unfold posterior_mode_run.
  destruct (Z.to_nat max_iter) as [|fuel] eqn:Hf; [lia|]. reflexivity.
Qed.

Lemma posterior_mode_no_training_points_witness :
  (0 < 10)%Z /\
  posterior_mode_run linalg_1x1 [] [] [] 10 1e-9 = (1%nat, []).
Proof.
  assert (H1 : (0 < 10)%Z) by lia.
  split; [exact H1|].
  exact (posterior_mode_no_training_points linalg_1x1 10 1e-9 H1).
Defined.

Lemma posterior_loop_negative_tol (L : Linalg) (X : matrix) (y : vec)
      (K_a : matrix) (tol : R) (fuel i : nat) (a : vec) :
  tol < 0 -> K_a <> [] -> a <> [] ->
  fst (posterior_loop L X y K_a tol fuel i a) = (i + fuel)%nat.
Proof.
  intros Htol HK. revert i a. induction fuel as [|fuel IH]; intros i a Ha.
  - cbn. lia.
  - cbn [posterior_loop].
    pose proof (posterior_body_update L X y K_a tol a) as Hu.
    pose proof (posterior_body_stop L X y K_a tol a) as Hs.
    destruct (posterior_body L X y K_a tol a) as [a_new stop].
    cbn [fst snd] in Hu, Hs.
    assert (Hnew : a_new <> []).
    { intro Hnil. apply (f_equal (@length R)) in Hnil.
      rewrite Hu, newton_update_length in Hnil. destruct K_a; [contradiction|].
      discriminate. }
    destruct stop.
    + exfalso. apply (proj1 Hs eq_refl). rewrite <- Hu. unfold exceeds.
      destruct a_new as [|p a_new]; [contradiction|].
      destruct a as [|q a]; [contradiction|].
      cbn. constructor. pose proof (Rabs_pos (p - q)). lra.
    + rewrite IH by assumption. lia.
Qed.

(** X11. With a tolerance below zero the solver never stops early: on a
    training set that is not empty it makes all [max_iter] passes. *)
Theorem posterior_mode_negative_tol (L : Linalg) (X : matrix) (y : vec)
        (K_a : matrix) (max_iter : Z) (tol : R) :
  tol < 0 -> K_a <> [] -> y <> [] ->
  fst (posterior_mode_run L X y K_a max_iter tol) = Z.to_nat max_iter.
Proof.
  intros Htol HK Hy. unfold posterior_mode_run.
  rewrite posterior_loop_negative_tol; try assumption; [lia|].
  destruct y; [contradiction | discriminate].
Qed.

Lemma posterior_mode_negative_tol_witness :
  -1 < 0 /\ [[1]] <> [] /\ [1] <> [] /\
  fst (posterior_mode_run linalg_1x1 [[0]] [1] [[1]] 10 (-1)) = Z.to_nat 10.
Proof.
  assert (H1 : -1 < 0) by lra.
  assert (H2 : [[1]] <> []) by discriminate.
  assert (H3 : [1] <> []) by discriminate.
  split; [exact H1|]. split; [exact H2|]. split; [exact H3|].
  exact (posterior_mode_negative_tol linalg_1x1 [[0]] [1] [[1]] 10 (-1)
           H1 H2 H3).
Defined.

(** ** More on the predictive engine *)

Lemma nth_map_in {A B : Type} (f : A -> B) (l : list A) (i : nat)
      (da : A) (db : B) :
  (i < length l)%nat -> nth i (map f l) db = f (nth i l da).
Proof.
  intro H. rewrite (nth_indep _ db (f da)) by (now rewrite length_map).
  apply map_nth.
Qed.

Lemma transpose_map_map {A B : Type} (f : A -> B -> R) (l1 : list A)
      (l2 : list B) :
  l1 <> [] ->
  transpose (map (fun a => map (f a) l2) l1)
  = map (fun b => map (fun a => f a b) l1) l2.
Proof.
  intro Hne. unfold transpose.
  assert (Hc : ncols (map (fun a => map (f a) l2) l1) = length l2).
  { destruct l1 as [|a l1]; [contradiction|]. cbn. apply length_map. }
  rewrite Hc.
  destruct l2 as [|b0 l2]; [reflexivity|].
  rewrite (map_as_seq (fun b => map (fun a => f a b) l1) (b0 :: l2) b0).
  apply map_ext_in; intros j Hj. apply in_seq in Hj.
  unfold col. rewrite map_map. apply map_ext; intro a.
  apply nth_map_in. lia.
Qed.

Lemma map2_map_combine {A B C D E : Type} (f : C -> D -> E) (g : A -> C)
      (h : B -> D) (l1 : list A) (l2 : list B) :
  map2 f (map g l1) (map h l2)
  = map (fun p => f (g (fst p)) (h (snd p))) (combine l1 l2).
Proof.
  revert l2. induction l1 as [|a l1 IH]; intros [|b l2]; cbn;
    try reflexivity.
  now rewrite IH.
Qed.

(** [mean_var] on a fitted model with at least one training point, test
    point by test point. *)
Lemma mean_var_pointwise (L : Linalg) (X_test X : matrix) (y : vec)
      (theta : theta_t) :
  X <> [] ->
  let s := {| self_theta := Some theta; self_X := Some X;
              self_y := Some y |} in
  let K_a := K_ X theta false nu_default in
  let a_h := posterior_mode L X y K_a 10 1e-9 in
  let R_inv := pinv L (madd (pinv L (W_ a_h)) K_a) in
  mean_var L X_test s =
  (Ok (map (mean_at L theta X y) X_test,
       match R_inv with
       | [] => []
       | _ :: _ => map (var_at L theta X y) X_test
       end), s).
Proof.
  intros HX. cbn zeta. rewrite mean_var_fitted. cbn zeta.
  rewrite exp_kernel_gram, (transpose_map_map (kern theta)) by assumption.
  f_equal. f_equal. f_equal.
  - unfold matvec. rewrite map_map. reflexivity.
  - remember (pinv L (madd (pinv L (W_ (posterior_mode L X y
                (K_ X theta false nu_default) 10 1e-9)))
                (K_ X theta false nu_default))) as R_inv eqn:HR.
    unfold matmul, dot_T, colsum, mmul.
    rewrite (transpose_map_map (kern theta)) by assumption.
    rewrite (map_ext _ (fun a => map (fun xt =>
               dot a (map (fun x => kern theta x xt) X)) X_test))
      by (intro a; now rewrite map_map).
    rewrite (map2_map_combine vmul
               (fun a => map (fun xt =>
                  dot a (map (fun x => kern theta x xt) X)) X_test)
               (fun x => map (kern theta x) X_test)).
    rewrite (map_ext _ (fun p => map (fun xt =>
               dot (fst p) (map (fun x => kern theta x xt) X)
               * kern theta (snd p) xt) X_test))
      by (intro p; unfold vmul; apply map2_map_map).
    destruct R_inv as [|r R_inv].
    + reflexivity.
    + destruct X as [|x X]; [contradiction|].
      rewrite (transpose_map_map
                 (fun p xt => dot (fst p) (map (fun x0 => kern theta x0 xt)
                                              (x :: X))
                              * kern theta (snd p) xt))
        by discriminate.
      rewrite !map_map. apply map_ext; intro xt.
      unfold var_at. cbn zeta. rewrite <- HR. reflexivity.
Qed.

(** X14. On a fitted model with at least one training point, [mean_var]
    returns one mean per test point; the mean at test point j is
    [sum_i k(x_i, x_j) (y_i - sigmoid(a_h_i))], and the mean and the
    variance at a test point are those [mean_var] returns for that point
    alone, whatever else is in the batch. *)
Theorem mean_var_batch_independent (L : Linalg) (X_test X : matrix)
        (y : vec) (theta : theta_t) (j : nat) :
  X <> [] ->
  (j < length X_test)%nat ->
  let s := {| self_theta := Some theta; self_X := Some X;
              self_y := Some y |} in
  let a_h := posterior_mode L X y (K_ X theta false nu_default) 10 1e-9 in
  exists mu var mu1 var1 : vec,
    mean_var L X_test s = (Ok (mu, var), s) /\
    mean_var L [nth j X_test []] s = (Ok (mu1, var1), s) /\
    length mu = length X_test /\
    nth j mu 0
    = dot (map (fun x => kern theta x (nth j X_test [])) X)
          (vsub y (map sigmoid a_h)) /\
    nth j mu 0 = nth 0 mu1 0 /\
    nth j var 0 = nth 0 var1 0.
Proof.
  intros HX Hj. cbn zeta.
  rewrite !mean_var_pointwise by assumption. cbn zeta.
  do 4 eexists. split; [reflexivity|]. split; [reflexivity|].
  split; [apply length_map|].
  rewrite (nth_map_in (B := R) _ X_test j [] 0) by assumption.
  split; [reflexivity|]. split; [reflexivity|].
  destruct (pinv L _) as [|r R_inv]; [now destruct j|].
  now rewrite (nth_map_in (B := R) _ X_test j [] 0) by assumption.
Qed.

Lemma mean_var_batch_independent_witness :
  [[0]] <> [] /\
  (1 < length [[2]; [3]])%nat /\
  (let s := {| self_theta := Some (1, 1); self_X := Some [[0]];
               self_y := Some [1] |} in
   let a_h := posterior_mode linalg_1x1 [[0]] [1]
                (K_ [[0]] (1, 1) false nu_default) 10 1e-9 in
   exists mu var mu1 var1 : vec,
     mean_var linalg_1x1 [[2]; [3]] s = (Ok (mu, var), s) /\
     mean_var linalg_1x1 [nth 1 [[2]; [3]] []] s = (Ok (mu1, var1), s) /\
     length mu = length [[2]; [3]] /\
     nth 1 mu 0
     = dot (map (fun x => kern (1, 1) x (nth 1 [[2]; [3]] [])) [[0]])
           (vsub [1] (map sigmoid a_h)) /\
     nth 1 mu 0 = nth 0 mu1 0 /\
     nth 1 var 0 = nth 0 var1 0).
Proof.
  assert (H1 : [[0]] <> ([] : matrix)) by discriminate.
  assert (H2 : (1 < length [[2]; [3]])%nat) by (cbn; lia).
  split; [exact H1|]. split; [exact H2|].
  exact (mean_var_batch_independent linalg_1x1 [[2]; [3]] [[0]] [1] (1, 1) 1
           H1 H2).
Defined.

(** X15. On a fitted model with at least one training point, the
    probability [predict] returns for a test point is the one it returns
    for that point alone. *)
Theorem predict_batch_independent (L : Linalg) (X_test X : matrix)
        (y : vec) (theta : theta_t) (j : nat) :
  X <> [] ->
  (j < length X_test)%nat ->
  let s := {| self_theta := Some theta; self_X := Some X;
              self_y := Some y |} in
  exists p p1 : vec,
    predict L X_test s = (Ok p, s) /\
    predict L [nth j X_test []] s = (Ok p1, s) /\
    nth j p 0 = nth 0 p1 0.
Proof.
  intros HX Hj. cbn zeta. unfold predict, bind.
  rewrite !mean_var_pointwise by assumption. cbn zeta.
  do 2 eexists. split; [reflexivity|]. split; [reflexivity|].
  destruct (pinv L _) as [|r R_inv]; [now destruct j|].
  unfold vmul. rewrite !map_map, !map2_map_map, !map_map.
  rewrite (nth_map_in (B := R) _ X_test j [] 0) by assumption. reflexivity.
Qed.

Lemma predict_batch_independent_witness :
  [[0]] <> [] /\
  (1 < length [[2]; [3]])%nat /\
  (let s := {| self_theta := Some (1, 1); self_X := Some [[0]];
               self_y := Some [1] |} in
   exists p p1 : vec,
     predict linalg_1x1 [[2]; [3]] s = (Ok p, s) /\
     predict linalg_1x1 [nth 1 [[2]; [3]] []] s = (Ok p1, s) /\
     nth 1 p 0 = nth 0 p1 0).
Proof.
  assert (H1 : [[0]] <> ([] : matrix)) by discriminate.
  assert (H2 : (1 < length [[2]; [3]])%nat) by (cbn; lia).
  split; [exact H1|]. split; [exact H2|].
  exact (predict_batch_independent linalg_1x1 [[2]; [3]] [[0]] [1] (1, 1) 1
           H1 H2).
Defined.

(** ** More on fitting and the accessors *)

Lemma predict_fitted_returns (L : Linalg) (X_test X : matrix) (y : vec)
      (theta : theta_t) :
  let s := {| self_theta := Some theta; self_X := Some X;
              self_y := Some y |} in
  (exists r, mean_var L X_test s = (Ok r, s)) /\
  (exists p, predict L X_test s = (Ok p, s)).
Proof.
  cbn zeta. split.
  - rewrite mean_var_fitted. eexists. reflexivity.
  - unfold predict, bind. rewrite mean_var_fitted. cbn zeta.
    eexists. reflexivity.
Qed.

Lemma linalg_1x1_inv (a : R) :
  a <> 0 -> inv linalg_1x1 [[a]] = Ok (pinv linalg_1x1 [[a]]).
Proof.
  intro Ha. cbn. destruct (Req_dec_T a 0); [contradiction | reflexivity].
Qed.

Lemma K_one_point (x : vec) (theta : theta_t) (nu : R) :
  K_ [x] theta false nu = [[snd theta ^ 2 + nu * 1]].
Proof.
  rewrite K_entries. unfold mk_matrix. cbn [length seq map Nat.eqb nth].
  now rewrite kern_self.
Qed.

Lemma W_one_point (a : R) : W_ [a] = [[sigmoid a * (1 - sigmoid a)]].
Proof. reflexivity. Qed.

Lemma nll_one_point_returns :
  exists v : R, nll_fn linalg_1x1 [[0]] [1] (1, 1) = Ok v.
Proof.
  unfold nll_fn. rewrite K_one_point, linalg_1x1_inv.
  - eexists. reflexivity.
  - cbn [snd]. unfold nu_default. lra.
Qed.

Lemma fit_one_point_returns :
  fst (fit linalg_1x1 minimize_at_start [[0]] [1] __init__) = Ok tt.
Proof.
  rewrite fit_outcome. unfold minimize_at_start.
  destruct nll_one_point_returns as [v ->]. reflexivity.
Qed.

(** X17. After a call to [fit] that returns, the model holds the training
    data it was given, and [mean_var] and [predict] return for every test
    set. *)
Theorem fit_then_predict (L : Linalg) (minimize : optimizer) (X : matrix)
        (y : vec) (s : GPC) (X_test : matrix) :
  fst (fit L minimize X y s) = Ok tt ->
  let s' := snd (fit L minimize X y s) in
  self_X s' = Some X /\ self_y s' = Some y /\
  (exists r, mean_var L X_test s' = (Ok r, s')) /\
  (exists p, predict L X_test s' = (Ok p, s')).
Proof.
  cbn zeta. rewrite fit_outcome.
  destruct (minimize _ _ _) as [res|e]; cbn [fst snd]; [|discriminate].
  intros _. split; [reflexivity|]. split; [reflexivity|].
  apply predict_fitted_returns.
Qed.

Lemma fit_then_predict_witness :
  fst (fit linalg_1x1 minimize_at_start [[0]] [1] __init__) = Ok tt /\
  (let s' := snd (fit linalg_1x1 minimize_at_start [[0]] [1] __init__) in
   self_X s' = Some [[0]] /\ self_y s' = Some [1] /\
   (exists r, mean_var linalg_1x1 [[2]] s' = (Ok r, s')) /\
   (exists p, predict linalg_1x1 [[2]] s' = (Ok p, s'))).
Proof.
  split; [exact fit_one_point_returns|].
  exact (fit_then_predict linalg_1x1 minimize_at_start [[0]] [1] __init__
           [[2]] fit_one_point_returns).
Defined.



(** X19. A call to [fit] that returns leaves a model that does not depend
    on what the model held before: the same call on any other model gives
    the same result and the same model. *)
Theorem fit_forgets_previous_state (L : Linalg) (minimize : optimizer)
        (X : matrix) (y : vec) (s1 s2 : GPC) :
  fst (fit L minimize X y s1) = Ok tt ->
  fit L minimize X y s2 = fit L minimize X y s1.
Proof.
  rewrite !fit_outcome.
  destruct (minimize _ _ _) as [res|e]; cbn [fst]; [|discriminate].
  reflexivity.
Qed.

Lemma fit_forgets_previous_state_witness :
  fst (fit linalg_1x1 minimize_at_start [[0]] [1] __init__) = Ok tt /\
  fit linalg_1x1 minimize_at_start [[0]] [1] gp_one
  = fit linalg_1x1 minimize_at_start [[0]] [1] __init__.
Proof.
  split; [exact fit_one_point_returns|].
  exact (fit_forgets_previous_state linalg_1x1 minimize_at_start [[0]] [1]
           __init__ gp_one fit_one_point_returns).
Defined.

(** X20. On a model that holds [X] and [theta], [predict_params] raises a
    [NameError] for [y] when the module binds no such name, whether or not
    the model holds labels. *)
Theorem predict_params_needs_module_y (L : Linalg) (X_test X : matrix)
        (theta : theta_t) (s : GPC) :
  self_X s = Some X ->
  self_theta s = Some theta ->
  predict_params L None X_test s = (Raise (NameError "y"), s).
Proof.
  intros HX Hth. destruct s as [th x y]. cbn in HX, Hth. subst th x.
  destruct y as [y|]; [apply predict_params_unbound_y | reflexivity].
Qed.

Lemma predict_params_needs_module_y_witness :
  self_X gp_one = Some [[0]] /\
  self_theta gp_one = Some (1, 1) /\
  predict_params linalg_1x1 None [[2]] gp_one
    = (Raise (NameError "y"), gp_one).
Proof.
  split; [reflexivity|]. split; [reflexivity|].
  exact (predict_params_needs_module_y linalg_1x1 [[2]] [[0]] (1, 1) gp_one
           eq_refl eq_refl).
Defined.

(** X21. What [predict_params] returns or raises does not depend on the
    labels the model holds. *)
Theorem predict_params_ignores_self_y (L : Linalg) (module_y : option vec)
        (X_test : matrix) (s : GPC) (y' : option vec) :
  fst (predict_params L module_y X_test s)
  = fst (predict_params L module_y X_test
           {| self_theta := self_theta s; self_X := self_X s;
              self_y := y' |}).
Proof.
  destruct s as [[theta|] [X|] y0]; cbn [self_theta self_X];
    try reflexivity.
  destruct module_y as [y|]; [|reflexivity].
  unfold predict_params, bind, getattr_X, getattr_theta, subscript,
    global_y, ret, lift.
  cbn [self_X self_theta self_y].
  destruct (inv L (W_ _)) as [W_inv|e]; [|reflexivity].
  destruct (inv L (madd W_inv _)) as [R_inv|e]; reflexivity.
Qed.

Lemma one_point_inverses (y : vec) :
  length y = 1%nat ->
  let K_a := K_ [[0]] (1, 1) false nu_default in
  let a_h := posterior_mode linalg_1x1 [[0]] y K_a 10 1e-9 in
  inv linalg_1x1 (W_ a_h) = Ok (pinv linalg_1x1 (W_ a_h)) /\
  inv linalg_1x1 (madd (pinv linalg_1x1 (W_ a_h)) K_a)
    = Ok (pinv linalg_1x1 (madd (pinv linalg_1x1 (W_ a_h)) K_a)).
Proof.
  intro Hy. cbn zeta.
  assert (Hlen : length (posterior_mode linalg_1x1 [[0]] y
                           (K_ [[0]] (1, 1) false nu_default) 10 1e-9)
                 = 1%nat).
  { rewrite posterior_mode_length; rewrite K_one_point; [reflexivity|].
    exact Hy. }
  destruct (posterior_mode linalg_1x1 [[0]] y _ 10 1e-9) as [|a [|? ?]];
    try discriminate.
  rewrite W_one_point, K_one_point.
  pose proof (sigmoid_bounds a) as Hs.
  set (w := sigmoid a * (1 - sigmoid a)).
  assert (Hw : 0 < w) by (unfold w; nra).
  split.
  - apply linalg_1x1_inv. lra.
  - cbn [pinv linalg_1x1]. destruct (Req_dec_T w 0) as [H0|H0]; [lra|].
    cbn [madd map2 vadd]. apply linalg_1x1_inv.
    assert (0 < / w) by (now apply Rinv_0_lt_compat).
    cbn [snd]. unfold nu_default. lra.
Qed.

(** X22. On a fitted model, when the module-level [y] is the model's own
    [y] and the two exact inverses exist and are what [pinv] returns,
    [predict_params] returns exactly what [mean_var] returns. *)
Theorem predict_params_matches_mean_var (L : Linalg) (X_test X : matrix)
        (y : vec) (theta : theta_t) :
  let s := {| self_theta := Some theta; self_X := Some X;
              self_y := Some y |} in
  let K_a := K_ X theta false nu_default in
  let a_h := posterior_mode L X y K_a 10 1e-9 in
  inv L (W_ a_h) = Ok (pinv L (W_ a_h)) ->
  inv L (madd (pinv L (W_ a_h)) K_a)
    = Ok (pinv L (madd (pinv L (W_ a_h)) K_a)) ->
  predict_params L (Some y) X_test s = mean_var L X_test s /\
  exists r, mean_var L X_test s = (Ok r, s).
Proof.
  cbn zeta. intros HW HR. split.
  - now apply predict_params_agrees.
  - apply predict_fitted_returns.
Qed.

Lemma predict_params_matches_mean_var_witness :
  (let K_a := K_ [[0]] (1, 1) false nu_default in
   let a_h := posterior_mode linalg_1x1 [[0]] [1] K_a 10 1e-9 in
   inv linalg_1x1 (W_ a_h) = Ok (pinv linalg_1x1 (W_ a_h)) /\
   inv linalg_1x1 (madd (pinv linalg_1x1 (W_ a_h)) K_a)
     = Ok (pinv linalg_1x1 (madd (pinv linalg_1x1 (W_ a_h)) K_a))) /\
  (predict_params linalg_1x1 (Some [1]) [[2]] gp_one
   = mean_var linalg_1x1 [[2]] gp_one /\
   exists r, mean_var linalg_1x1 [[2]] gp_one = (Ok r, gp_one)).
Proof.
  split; [exact (one_point_inverses [1] eq_refl)|].
  exact (predict_params_matches_mean_var linalg_1x1 [[2]] [[0]] [1] (1, 1)
           (proj1 (one_point_inverses [1] eq_refl))
           (proj2 (one_point_inverses [1] eq_refl))).
Defined.
